(** * golog: a shallow embedding of the dispatcher and its renderers

    The repository holds two variants of one package:
    - [log.go]: the fixed-layout variant (module [Fixed] below);
    - the token-template variant (module [Token] below).
    Both share the severity type, [matchTags], the tag filter of the
    dispatcher and the in-place removal loop of [DeRegisterLogger]. *)

From Stdlib Require Import ZArith NArith Ascii String List Lia.
From stdpp Require Import base tactics option list strings pretty gmap fin_maps.

Local Open Scope N_scope.

(** ** Outcomes

    A Go call either returns or brings the process down (a panic that
    nobody recovers, a fatal runtime error). *)

Inductive outcome (A : Type) : Type :=
| Returns (a : A)
| Crashes.
Arguments Returns {A} a.
Arguments Crashes {A}.

Definition obind {A B} (o : outcome A) (k : A → outcome B) : outcome B :=
  match o with
  | Returns a => k a
  | Crashes => Crashes
  end.

Notation "x ←! o ; k" := (obind o (λ x, k))
  (at level 20, o at level 100, k at level 200, right associativity).

(** ** Severities: [type LogLevel uint8] with the [iota] constants *)

Definition LogLevel := N.

Definition All : LogLevel := 0.
Definition Trace : LogLevel := 1.
Definition Debug : LogLevel := 2.
Definition Info : LogLevel := 3.
Definition Warning : LogLevel := 4.
Definition Error : LogLevel := 5.
Definition None_ : LogLevel := 6.

(** [func (ll LogLevel) String() string].  The [default] branch calls
    [panic(fmt.Sprintf("No such log level, %v", ll))]; whether the
    process dies in the [panic] or already while the argument of the
    [panic] is formatted ([%v] on a [LogLevel] asks for its [String]
    again), the call does not return: [Crashes]. *)
Definition LogLevel_String (ll : LogLevel) : outcome string :=
  match ll with
  | 6 => Returns "NONE"
  | 5 => Returns "ERR "
  | 4 => Returns "WARN"
  | 3 => Returns "INFO"
  | 2 => Returns "DBG "
  | 1 => Returns "TRC "
  | 0 => Returns "ALL "
  | _ => Crashes
  end.

(** The severities of the defined set. *)
Definition defined_levels : list LogLevel :=
  [All; Trace; Debug; Info; Warning; Error; None_].

(** ** Values of type [interface{}]

    The subject and the elements of a message are [interface{}] values.
    The model has the dynamic types the claims use. *)

Inductive value : Type :=
| VNil
| VString (s : string)
| VInt (z : Z)
| VBool (b : bool)
| VLevel (ll : LogLevel).

(** ** Package [fmt]

    The model covers directives made of [%] followed at once by the verb:
    [%v], [%s], [%d], [%t] and [%%], with the error reports of [fmt]
    (wrong verb, missing operand, operands left over, no verb).  Flags,
    widths, precisions and argument indexes are outside the model. *)

Definition type_name (v : value) : string :=
  match v with
  | VNil => ""
  | VString _ => "string"
  | VInt _ => "int"
  | VBool _ => "bool"
  | VLevel _ => "golog.LogLevel"
  end.

Definition bool_text (b : bool) : string := if b then "true" else "false".

(** The operand printed without its methods, as [fmt] does inside an
    error report. *)
Definition plain (v : value) : string :=
  match v with
  | VNil => "<nil>"
  | VString s => s
  | VInt z => pretty z
  | VBool b => bool_text b
  | VLevel ll => pretty ll
  end.

Definition badVerb (verb : ascii) (v : value) : string :=
  "%!" +:+ String verb
    ("(" +:+ match v with
             | VNil => "<nil>"
             | _ => type_name v +:+ "=" +:+ plain v
             end +:+ ")").

Definition printArg (v : value) (verb : ascii) : outcome string :=
  match v with
  | VNil =>
      if Ascii.eqb verb "v" then Returns "<nil>" else Returns (badVerb verb v)
  | VString s =>
      if Ascii.eqb verb "v" || Ascii.eqb verb "s" then Returns s
      else Returns (badVerb verb v)
  | VInt z =>
      if Ascii.eqb verb "v" || Ascii.eqb verb "d" then Returns (pretty z)
      else Returns (badVerb verb v)
  | VBool b =>
      if Ascii.eqb verb "v" || Ascii.eqb verb "t" then Returns (bool_text b)
      else Returns (badVerb verb v)
  | VLevel ll =>
      (* a Stringer: [%v] and [%s] go through [String] *)
      if Ascii.eqb verb "v" || Ascii.eqb verb "s" then LogLevel_String ll
      else if Ascii.eqb verb "d" then Returns (pretty ll)
      else Returns (badVerb verb v)
  end.

(** Operands left over: ["%!(EXTRA type=value, type=value)"]. *)
Fixpoint extra_list (first : bool) (a : list value) : outcome string :=
  match a with
  | [] => Returns ""
  | arg :: rest =>
      s ←! match arg with
           | VNil => Returns "<nil>"
           | _ => t ←! printArg arg "v"; Returns (type_name arg +:+ "=" +:+ t)
           end;
      r ←! extra_list false rest;
      Returns ((if first then "" else ", ") +:+ s +:+ r)
  end.

Definition extra (a : list value) : outcome string :=
  match a with
  | [] => Returns ""
  | _ => r ←! extra_list true a; Returns ("%!(EXTRA " +:+ r +:+ ")")
  end.

(** [fmt.Sprintf(format, a...)].  [pct] tells that the previous byte was
    the [%] that opens a directive. *)
Fixpoint doPrintf (pct : bool) (format : string) (a : list value)
  : outcome string :=
  match format with
  | EmptyString =>
      r ←! extra a;
      Returns ((if pct then "%!(NOVERB)" else "") +:+ r)
  | String c rest =>
      if pct then
        if Ascii.eqb c "%" then
          r ←! doPrintf false rest a; Returns (String "%" r)
        else
          match a with
          | [] =>
              r ←! doPrintf false rest a;
              Returns ("%!" +:+ String c ("(MISSING)" +:+ r))
          | arg :: a' =>
              s ←! printArg arg c;
              r ←! doPrintf false rest a';
              Returns (s +:+ r)
          end
      else if Ascii.eqb c "%" then doPrintf true rest a
      else r ←! doPrintf false rest a; Returns (String c r)
  end.

Definition Sprintf (format : string) (a : list value) : outcome string :=
  doPrintf false format a.


(** ** Package [strings]

    Go strings are byte sequences; [string] is a sequence of bytes. *)

(** [strings.Contains(s, substr)]. *)
Fixpoint Contains (s substr : string) : bool :=
  String.prefix substr s ||
  match s with
  | EmptyString => false
  | String _ s' => Contains s' substr
  end.

(** The scan of [strings.Replace] for a non-empty [old]: [skip] counts
    the bytes of a replaced instance that are still to be stepped over,
    so instances are taken leftmost first and do not overlap. *)
Fixpoint replace_from (old new : string) (skip : nat) (s : string) : string :=
  match s with
  | EmptyString => EmptyString
  | String c s' =>
      match skip with
      | S n => replace_from old new n s'
      | O =>
          if String.prefix old s
          then new +:+ replace_from old new (String.length old - 1) s'
          else String c (replace_from old new 0 s')
      end
  end.

(** With an empty [old] the library puts [new] in front of the string and
    after every UTF-8 sequence; on ASCII text that is after every byte. *)
Fixpoint replace_empty (new s : string) : string :=
  match s with
  | EmptyString => new
  | String c s' => new +:+ String c (replace_empty new s')
  end.

(** [strings.Replace(s, old, new, -1)]. *)
Definition Replace (s old new : string) : string :=
  if String.eqb old new then s
  else match old with
       | EmptyString => replace_empty new s
       | String _ _ => replace_from old new 0 s
       end.


(** ** Package [log] *)

(** [io.Writer] handles: the standard output and any other one. *)
Inductive Writer : Type :=
| Stdout
| Handle (id : nat).

Global Instance Writer_eq_dec : EqDecision Writer.
Proof. solve_decision. Defined.

Definition Ldate : Z := 1.
Definition Ltime : Z := 2.
Definition Lmicroseconds : Z := 4.
Definition LstdFlags : Z := Z.lor Ldate Ltime.

(** A [log.Logger], as [log.New(out, prefix, flag)] builds it. *)
Record Logger : Type := log_New {
  lg_out : Writer;
  lg_prefix : string;
  lg_flag : Z
}.

(** The header of a line: the prefix, then the date and time when a flag
    asks for them.  [stamp] is the text the library prints for the
    current time, its final blank included (["2009/11/10 23:00:00 "]). *)
Definition formatHeader (l : Logger) (stamp : string) : string :=
  lg_prefix l +:+
  (if Z.eqb (Z.land (lg_flag l) (Z.lor Ldate (Z.lor Ltime Lmicroseconds))) 0
   then "" else stamp).

Definition newline : string := String "010" "".

Fixpoint ends_with_newline (s : string) : bool :=
  match s with
  | EmptyString => false
  | String c EmptyString => Ascii.eqb c "010"
  | String _ s' => ends_with_newline s'
  end.

(** [Logger.Output]: header, text, and a newline unless the text ends
    with one already; the bytes go to the writer of the logger.  The
    error of the write is dropped by [Printf]. *)
Definition Output (l : Logger) (stamp s : string) : Writer * string :=
  (lg_out l,
   formatHeader l stamp +:+ s +:+ (if ends_with_newline s then "" else newline)).

(** [Logger.Printf(format, v...)]. *)
Definition Logger_Printf (l : Logger) (stamp format : string) (v : list value)
  : outcome (Writer * string) :=
  s ←! Sprintf format v; Returns (Output l stamp s).

(** ** Code shared by the two variants *)

(** The inner loop of [matchTags]. *)
Fixpoint matchTag (t : string) (logTags : list string) : bool :=
  match logTags with
  | [] => false
  | t' :: rest => if String.eqb t t' then true else matchTag t rest
  end.

(** [func matchTags(msgTags, logTags []string) bool]. *)
Fixpoint matchTags (msgTags logTags : list string) : bool :=
  match msgTags with
  | [] => false
  | t :: rest => if matchTag t logTags then true else matchTags rest logTags
  end.

Section Loops.
(** The two variants have their own [Instance] struct; the loops of the
    dispatcher read its [Name] and [tags] only. *)
Context {Inst : Type} (Name : Inst → string) (tags : Inst → list string).

(** The loop that collects [loggers] for a message:
    [if len(l.tags) > 0 { if !matchTags(msg.Tags, l.tags) { continue } }]
    and then [loggers = append(loggers, l)]. *)
Fixpoint select_loggers (msgTags : list string) (gologgers : list Inst)
  : list Inst :=
  match gologgers with
  | [] => []
  | l :: rest =>
      if (0 <? length (tags l))%nat then
        if negb (matchTags msgTags (tags l))
        then select_loggers msgTags rest
        else l :: select_loggers msgTags rest
      else l :: select_loggers msgTags rest
  end.

(** The loop of [DeRegisterLogger]: [n] iterations are left, [j] is the
    index the [range] reads, [i] the index it writes; the array is
    updated in place. *)
Fixpoint deregister_loop (name : string) (n j i : nat) (arr : list Inst)
  : nat * list Inst :=
  match n with
  | O => (i, arr)
  | S n' =>
      match arr !! j with
      | None => (i, arr)
      | Some l =>
          if String.eqb (Name l) name
          then deregister_loop name n' (S j) i arr
          else deregister_loop name n' (S j) (S i) (<[i:=l]> arr)
      end
  end.

(** [gologgers = gologgers[:i]] after the loop. *)
Definition deregister (name : string) (gologgers : list Inst) : list Inst :=
  let '(i, arr) := deregister_loop name (length gologgers) 0 0 gologgers in
  take i arr.

(** The filter of an instance lets a message through: the filter is
    empty, or it shares a tag with the message. *)
Definition passes (msgTags : list string) (l : Inst) : Prop :=
  tags l = [] ∨ ∃ t, t ∈ tags l ∧ t ∈ msgTags.
End Loops.

(** [for _, l := range loggers { ... }]: the body runs for each logger in
    turn; [i] numbers the writes, so that each one can read the clock.
    A body that crashes ends the process; [Crashes] keeps no record of
    the writes made before. *)
Fixpoint for_loggers {Inst Ev : Type} (body : nat → Inst → outcome Ev)
  (i : nat) (loggers : list Inst) : outcome (list Ev) :=
  match loggers with
  | [] => Returns []
  | l :: rest =>
      e ←! body i l;
      es ←! for_loggers body (S i) rest;
      Returns (e :: es)
  end.

(** ** The fixed-layout variant ([log.go]) *)

Module Fixed.

(** [log] is a pointer: [None] is nil, as [newInstance] leaves it. *)
Record Instance : Type := mkInstance {
  Name : string;
  output : Writer;
  tags : list string;
  log : option Logger
}.

(** [func newInstance(name string, output io.Writer, tags ...string)]. *)
Definition newInstance (name : string) (out : Writer) (tgs : list string)
  : Instance :=
  {| Name := name; output := out; tags := tgs; log := None |}.

(** [func (i *Instance) initialize() *Instance]:
    [i.log = log.New(os.Stdout, "", log.LstdFlags)]. *)
Definition initialize (i : Instance) : Instance :=
  {| Name := Name i; output := output i; tags := tags i;
     log := Some (log_New Stdout "" LstdFlags) |}.

Record Message : Type := mkMessage {
  Level : LogLevel;
  Subject : value;
  Tags : list string;
  Format : string;
  Elements : list value
}.

(** The package variables the dispatcher owns. *)
Record State : Type := mkState {
  gologgers : list Instance;
  level : LogLevel;
  prefix : string
}.

Definition initial : State :=
  {| gologgers := [initialize (newInstance "default" Stdout [])];
     level := Info;
     prefix := "" |}.

(** [func Log(level, subject, format, elements...)]: the message put on
    [Sink]; its tags are [nil]. *)
Definition Log (lvl : LogLevel) (subject : value) (format : string)
  (elements : list value) : Message :=
  {| Level := lvl; Subject := subject; Tags := [];
     Format := format; Elements := elements |}.

(** What the dispatcher receives in one turn of its [select].  ([init]
    of [log.go] makes [Sink], [NewLevel] and [Prefix]; the turns on
    [RegisterLogger] and [DeRegisterLogger] are the code of their cases,
    run once these two variables hold a channel.) *)
Inductive Command : Type :=
| RegisterLogger (logger : Instance)
| DeRegisterLogger (name : string)
| NewLevel (newLevel : LogLevel)
| Prefix (prfx : string)
| Sink (msg : Message).

(** [func AddLoggerInstance(name, output, tags...)]: what it puts on
    [RegisterLogger]. *)
Definition AddLoggerInstance (name : string) (out : Writer)
  (tgs : list string) : Command :=
  RegisterLogger (initialize (newInstance name out tgs)).

(** One call of [l.log.Printf]: the instance, the writer that gets the
    bytes, the bytes. *)
Record Event : Type := mkEvent {
  ev_sink : Instance;
  ev_out : Writer;
  ev_data : string
}.

(** The format and the operands of the [Printf] call of the [Sink]
    case: one call when [msg.Subject != nil], another when it is nil. *)
Definition printf_call (msg : Message) : outcome (string * list value) :=
  body ←! Sprintf (Format msg) (Elements msg);
  Returns match Subject msg with
          | VNil => ("[%v] %v", [VLevel (Level msg); VString body])
          | subject =>
              ("[%v] %v, %v", [VLevel (Level msg); subject; VString body])
          end.

(** The line the layout gives, before the logger decorates it. *)
Definition render (msg : Message) : outcome string :=
  call ←! printf_call msg; Sprintf call.1 call.2.

(** The body of the loops over [loggers]; a nil [l.log] is a nil
    pointer dereference. *)
Definition print (clock : nat → string) (msg : Message) (i : nat)
  (l : Instance) : outcome Event :=
  call ←! printf_call msg;
  match log l with
  | None => Crashes
  | Some lg =>
      wb ←! Logger_Printf lg (clock i) call.1 call.2;
      Returns {| ev_sink := l; ev_out := wb.1; ev_data := wb.2 |}
  end.

(** [case msg := <-Sink]. *)
Definition deliver (clock : nat → string) (st : State) (msg : Message)
  : outcome (list Event) :=
  if Level msg <? level st then Returns []
  else
    let loggers := select_loggers tags (Tags msg) (gologgers st) in
    if (length loggers =? 0)%nat then Returns []
    else for_loggers (print clock msg) 0 loggers.

(** One turn of the [for { select { ... } }] loop. *)
Definition step (clock : nat → string) (st : State) (c : Command)
  : outcome (State * list Event) :=
  match c with
  | RegisterLogger logger =>
      Returns ({| gologgers := gologgers st ++ [logger];
                  level := level st; prefix := prefix st |}, [])
  | DeRegisterLogger name =>
      Returns ({| gologgers := deregister Name name (gologgers st);
                  level := level st; prefix := prefix st |}, [])
  | NewLevel newLevel =>
      Returns ({| gologgers := gologgers st;
                  level := newLevel; prefix := prefix st |}, [])
  | Prefix prfx =>
      Returns ({| gologgers :=
                    map (λ l, {| Name := Name l; output := output l;
                                 tags := tags l;
                                 log := Some (log_New (output l) prfx LstdFlags) |})
                        (gologgers st);
                  level := level st; prefix := prfx |}, [])
  | Sink msg =>
      evs ←! deliver clock st msg; Returns (st, evs)
  end.

(** [func IsProduction(b bool)]: what it puts on [NewLevel]. *)
Definition IsProduction (b : bool) : list Command :=
  if b then [NewLevel Warning] else [].

(** The loop [for { select { ... } }] over the commands it receives, in
    the order it receives them; [turn] numbers the turns, and each turn
    has its clock. *)
Fixpoint run (clock : nat → nat → string) (turn : nat) (st : State)
  (cmds : list Command) : outcome (State * list Event) :=
  match cmds with
  | [] => Returns (st, [])
  | c :: rest =>
      r ←! step (clock turn) st c;
      r' ←! run clock (S turn) r.1 rest;
      Returns (r'.1, r.2 ++ r'.2)
  end.

End Fixed.

(** ** The token-template variant *)

Module Token.

Definition ExpandFunctionName : string := "FUNCTION".
Definition ExpandLineNumber : string := "LINE".
Definition ExpandTime : string := "TIME".
Definition ExpandDuration : string := "DURATION".
Definition ExpandSubject : string := "SUBJECT".
Definition ExpandMessageLevel : string := "LEVEL".
Definition ExpandMessage : string := "MESSAGE".

(** [log] is a pointer: [None] is nil.  The fields [UpdateOutput] and
    [UpdateOutputTrigger] are never read or written. *)
Record Instance : Type := mkInstance {
  Name : string;
  Format : string;
  output : Writer;
  tags : list string;
  log : option Logger;
  needsRuntime : bool
}.

(** [func (i *Instance) checkForRuntime() *Instance]. *)
Definition checkForRuntime (i : Instance) : Instance :=
  if Contains (Format i) ExpandFunctionName
     || Contains (Format i) ExpandLineNumber
  then {| Name := Name i; Format := Format i; output := output i;
          tags := tags i; log := log i; needsRuntime := true |}
  else i.

(** [func newInstance(name, format string, output io.Writer, tags ...string)]. *)
Definition newInstance (name format : string) (out : Writer)
  (tgs : list string) : Instance :=
  checkForRuntime
    {| Name := name; Format := format; output := out; tags := tgs;
       log := None; needsRuntime := false |}.

(** [func (i *Instance) initialize() *Instance]:
    [i.log = log.New(i.output, "", 0)]. *)
Definition initialize (i : Instance) : Instance :=
  {| Name := Name i; Format := Format i; output := output i;
     tags := tags i; log := Some (log_New (output i) "" 0);
     needsRuntime := needsRuntime i |}.

(** [values] is a Go map: [None] is the nil map, which reads as empty
    and panics when assigned to. *)
Record Message : Type := mkMessage {
  Level : LogLevel;
  Subject : value;
  Tags : list string;
  values : option (gmap string string);
  MFormat : string;  (* the field [Format] of [Message] *)
  Elements : list value
}.

Record State : Type := mkState {
  gologgers : list Instance;
  level : LogLevel
}.

Definition initial : State :=
  {| gologgers :=
       [initialize (newInstance "default" "[LEVEL] SUBJECT, MESSAGE" Stdout [])];
     level := Info |}.

(** [func Log(level, subject, format, elements...)].  [name] and [line]
    come from [runtime.Caller(1)] and [runtime.FuncForPC], [now] and
    [since] are [time.Now().String()] and
    [time.Now().Sub(start).String()]. *)
Definition Log (name : string) (line : Z) (now since : string)
  (lvl : LogLevel) (subject : value) (format : string)
  (elements : list value) : Message :=
  {| Level := lvl; Subject := subject; Tags := [];
     values := Some (<[ExpandDuration := since]>
                      (<[ExpandTime := now]>
                        (<[ExpandFunctionName := name]>
                          {[ExpandLineNumber := pretty line]})));
     MFormat := format; Elements := elements |}.

Inductive Command : Type :=
| RegisterLogger (logger : Instance)
| DeRegisterLogger (name : string)
| NewLevel (newLevel : LogLevel)
| Sink (msg : Message).

(** [func AddLoggerInstance(name, format, output, tags...)]: what it
    puts on [RegisterLogger]. *)
Definition AddLoggerInstance (name format : string) (out : Writer)
  (tgs : list string) : Command :=
  RegisterLogger (initialize (newInstance name format out tgs)).

Record Event : Type := mkEvent {
  ev_sink : Instance;
  ev_out : Writer;
  ev_data : string
}.

(** [for expand, value := range msg.values]: Go visits the entries of a
    map in an order of its choosing, a new one at every [range].
    [order] is the order of one such loop; it lists every key of the
    map once. *)
Definition range_order (m : gmap string string) (order : list string) : Prop :=
  order ≡ₚ (map_to_list m).*1.

(** [func (i *Instance) expand(format string, msg *Message) string], run
    with the keys visited in [order]. *)
Definition expand (order : list string) (format : string)
  (vals : gmap string string) : string :=
  foldl (λ fmt k, match vals !! k with
                  | Some v => Replace fmt k v
                  | None => fmt
                  end) format order.

(** [msg.values[key] = v]. *)
Definition assign (m : option (gmap string string)) (key v : string)
  : outcome (option (gmap string string)) :=
  match m with
  | None => Crashes
  | Some vals => Returns (Some (<[key := v]> vals))
  end.

(** The three assignments before the loop over [loggers]. *)
Definition fill (msg : Message) : outcome (gmap string string) :=
  body ←! Sprintf (MFormat msg) (Elements msg);
  m1 ←! assign (values msg) ExpandMessage body;
  subject ←! Sprintf "%v" [Subject msg];
  m2 ←! assign m1 ExpandSubject subject;
  lvl ←! LogLevel_String (Level msg);
  m3 ←! assign m2 ExpandMessageLevel lvl;
  match m3 with
  | Some vals => Returns vals
  | None => Crashes
  end.

(** The body of the loop over [loggers]:
    [format := l.expand(l.Format, &msg)] and [l.log.Printf(format)]; a
    nil [l.log] is a nil pointer dereference. *)
Definition print (clock : nat → string) (orders : nat → list string)
  (vals : gmap string string) (i : nat) (l : Instance) : outcome Event :=
  let format := expand (orders i) (Format l) vals in
  match log l with
  | None => Crashes
  | Some lg =>
      wb ←! Logger_Printf lg (clock i) format [];
      Returns {| ev_sink := l; ev_out := wb.1; ev_data := wb.2 |}
  end.

(** [case msg := <-Sink]. *)
Definition deliver (clock : nat → string) (orders : nat → list string)
  (st : State) (msg : Message) : outcome (list Event) :=
  if Level msg <? level st then Returns []
  else
    let loggers := select_loggers tags (Tags msg) (gologgers st) in
    if (length loggers =? 0)%nat then Returns []
    else
      vals ←! fill msg;
      for_loggers (print clock orders vals) 0 loggers.

Definition step (clock : nat → string) (orders : nat → list string)
  (st : State) (c : Command) : outcome (State * list Event) :=
  match c with
  | RegisterLogger logger =>
      Returns ({| gologgers := gologgers st ++ [logger];
                  level := level st |}, [])
  | DeRegisterLogger name =>
      Returns ({| gologgers := deregister Name name (gologgers st);
                  level := level st |}, [])
  | NewLevel newLevel =>
      Returns ({| gologgers := gologgers st; level := newLevel |}, [])
  | Sink msg =>
      evs ←! deliver clock orders st msg; Returns (st, evs)
  end.

(** [func IsProduction(b bool)]: what it puts on [NewLevel]. *)
Definition IsProduction (b : bool) : list Command :=
  if b then [NewLevel Warning] else [].

(** The loop [for { select { ... } }] over the commands it receives, in
    the order it receives them; [turn] numbers the turns, and each turn
    has its clock and its range orders. *)
Fixpoint run (clock : nat → nat → string) (orders : nat → nat → list string)
  (turn : nat) (st : State) (cmds : list Command)
  : outcome (State * list Event) :=
  match cmds with
  | [] => Returns (st, [])
  | c :: rest =>
      r ←! step (clock turn) (orders turn) st c;
      r' ←! run clock orders (S turn) r.1 rest;
      Returns (r'.1, r.2 ++ r'.2)
  end.

End Token.

(** ** Messages whose formatting returns

    A [LogLevel] outside the defined set makes [String] crash, as the
    level of a message or as an operand of a format. *)

Definition printable (v : value) : bool :=
  match v with
  | VLevel ll => ll <=? None_
  | _ => true
  end.

Definition Fixed_well_formed (msg : Fixed.Message) : bool :=
  (Fixed.Level msg <=? None_)
  && printable (Fixed.Subject msg)
  && forallb printable (Fixed.Elements msg).

Definition Token_well_formed (msg : Token.Message) : bool :=
  (Token.Level msg <=? None_)
  && printable (Token.Subject msg)
  && forallb printable (Token.Elements msg)
  && bool_decide (is_Some (Token.values msg)).

(** The bytes of a line hold no [%]. *)
Fixpoint no_percent (s : string) : bool :=
  match s with
  | EmptyString => true
  | String c s' => negb (Ascii.eqb c "%") && no_percent s'
  end.

(** Instances of the token-template variant as [initialize] leaves
    them: the logger writes to the output of the instance, with no prefix
    and no flag. *)
Definition Token_initialized (l : Token.Instance) : Prop :=
  Token.log l = Some (log_New (Token.output l) "" 0).

(** Instances of the fixed-layout variant have a logger with the flags
    [log.LstdFlags], from [initialize] or from a [Prefix] command. *)
Definition Fixed_stamped (l : Fixed.Instance) : Prop :=
  ∃ lg, Fixed.log l = Some lg ∧ lg_flag lg = LstdFlags.

(** The commands that the functions of the package send: a registered
    instance comes from [newInstance(...).initialize()]. *)
Definition Fixed_sent (c : Fixed.Command) : Prop :=
  match c with
  | Fixed.RegisterLogger l => Fixed_stamped l
  | _ => True
  end.

Definition Token_sent (c : Token.Command) : Prop :=
  match c with
  | Token.RegisterLogger l => Token_initialized l
  | _ => True
  end.

(** The states the dispatcher gets to from the start of the package, one
    command at a time. *)
Inductive Fixed_reachable : Fixed.State → Prop :=
| Fixed_reach_initial : Fixed_reachable Fixed.initial
| Fixed_reach_step clock st c st' evs :
    Fixed_reachable st → Fixed_sent c →
    Fixed.step clock st c = Returns (st', evs) →
    Fixed_reachable st'.

Inductive Token_reachable : Token.State → Prop :=
| Token_reach_initial : Token_reachable Token.initial
| Token_reach_step clock orders st c st' evs :
    Token_reachable st → Token_sent c →
    Token.step clock orders st c = Returns (st', evs) →
    Token_reachable st'.

(** The commands of producers that keep to the functions of the package
    and to the defined severities: instances come from [initialize],
    messages are well formed. *)
Definition Fixed_safe (c : Fixed.Command) : Prop :=
  match c with
  | Fixed.RegisterLogger l => Fixed_stamped l
  | Fixed.Sink msg => Fixed_well_formed msg = true
  | _ => True
  end.

Definition Token_safe (c : Token.Command) : Prop :=
  match c with
  | Token.RegisterLogger l => Token_initialized l
  | Token.Sink msg => Token_well_formed msg = true
  | _ => True
  end.

(** [sub] occurs in [s]. *)
Definition occurs (sub s : string) : Prop :=
  ∃ pre post, s = pre +:+ sub +:+ post.

(** The keys of the context of a message. *)
Definition context_keys : list string :=
  [Token.ExpandLineNumber; Token.ExpandFunctionName; Token.ExpandTime;
   Token.ExpandDuration; Token.ExpandMessage; Token.ExpandSubject;
   Token.ExpandMessageLevel].

(** ** Scenarios

    The inputs of the scenarios of the specification, for the examples
    below. *)

Definition clock0 : nat → string := λ _, "2009/11/10 23:00:00 ".

Definition order0 : list string :=
  ["LEVEL"; "SUBJECT"; "MESSAGE"; "LINE"; "FUNCTION"; "TIME"; "DURATION"].

Definition orders0 : nat → list string := λ _, order0.

(** The instance the package starts with, and two sinks: S1 with the
    filter {db}, S2 without a filter. *)
Definition Fixed_default : Fixed.Instance :=
  Fixed.initialize (Fixed.newInstance "default" Stdout []).
Definition Fixed_S1 : Fixed.Instance :=
  Fixed.initialize (Fixed.newInstance "S1" (Handle 1) ["db"]).
Definition Fixed_S2 : Fixed.Instance :=
  Fixed.initialize (Fixed.newInstance "S2" (Handle 2) []).
Definition Fixed_two_sinks : Fixed.State :=
  {| Fixed.gologgers := [Fixed_S1; Fixed_S2];
     Fixed.level := Info; Fixed.prefix := "" |}.

Definition Token_default : Token.Instance :=
  Token.initialize
    (Token.newInstance "default" "[LEVEL] SUBJECT, MESSAGE" Stdout []).
Definition Token_S1 : Token.Instance :=
  Token.initialize (Token.newInstance "S1" "LEVEL MESSAGE" (Handle 1) ["db"]).
Definition Token_S2 : Token.Instance :=
  Token.initialize
    (Token.newInstance "S2" "[LEVEL] SUBJECT, MESSAGE" (Handle 2) []).
Definition Token_two_sinks : Token.State :=
  {| Token.gologgers := [Token_S1; Token_S2]; Token.level := Info |}.

(** A message with a tag, put on [Sink] as it is. *)
Definition Fixed_tagged (tag : string) : Fixed.Message :=
  {| Fixed.Level := Error; Fixed.Subject := VNil; Fixed.Tags := [tag];
     Fixed.Format := "x"; Fixed.Elements := [] |}.

Definition Token_tagged (tag : string) : Token.Message :=
  {| Token.Level := Error; Token.Subject := VNil; Token.Tags := [tag];
     Token.values := Some ∅; Token.MFormat := "x"; Token.Elements := [] |}.

Definition order1 : list string :=
  ["MESSAGE"; "LEVEL"; "SUBJECT"; "LINE"; "FUNCTION"; "TIME"; "DURATION"].

Definition orders1 : nat → list string := λ _, order1.

(** [Log(Error, "auth", "boom")] called from [Handle] at line 42, and the
    context the dispatcher fills for it. *)
Definition Handle_msg : Token.Message :=
  Token.Log "Handle" 42 "t" "d" Error (VString "auth") "boom" [].

Definition Handle_context : gmap string string :=
  list_to_map [("LINE", "42"); ("FUNCTION", "Handle"); ("TIME", "t");
               ("DURATION", "d"); ("MESSAGE", "boom"); ("SUBJECT", "auth");
               ("LEVEL", "ERR ")].

(** [Log(Info, "MESSAGE", "SUBJECT")]: the subject and the body are the
    names of two tokens. *)
Definition swap_msg : Token.Message :=
  Token.Log "main.main" 42 "t" "d" Info (VString "MESSAGE") "SUBJECT" [].

Definition swap_context : gmap string string :=
  list_to_map [("LINE", "42"); ("FUNCTION", "main.main"); ("TIME", "t");
               ("DURATION", "d"); ("MESSAGE", "SUBJECT");
               ("SUBJECT", "MESSAGE"); ("LEVEL", "INFO")].

(** [Log(Info, "auth", "LEVEL")]: the body is the name of a token. *)
Definition chained_msg : Token.Message :=
  Token.Log "main.main" 42 "t" "d" Info (VString "auth") "LEVEL" [].

Definition chained_context : gmap string string :=
  list_to_map [("LINE", "42"); ("FUNCTION", "main.main"); ("TIME", "t");
               ("DURATION", "d"); ("MESSAGE", "LEVEL");
               ("SUBJECT", "auth"); ("LEVEL", "INFO")].

(** [fmt.Sprintf(format)], the call without operands that
    [l.log.Printf(format)] makes in the token-template variant; with no
    operand no [String] method runs, and the call returns. *)
Definition Sprintf0 (format : string) : string :=
  match Sprintf format [] with
  | Returns s => s
  | Crashes => format
  end.

(** * Properties *)

(** ** Outcomes and formatting *)

Lemma append_empty_r (s : string) : s +:+ "" = s.
Proof.
  induction s as [|c s IH]; [reflexivity|].
  change (String c (s +:+ "") = String c s). rewrite IH. reflexivity.
Qed.

Lemma append_String (c : ascii) (s t : string) :
  String c s +:+ t = String c (s +:+ t).
Proof. reflexivity. Qed.

Lemma append_assoc (s t u : string) : (s +:+ t) +:+ u = s +:+ t +:+ u.
Proof.
  induction s as [|c s IH]; [reflexivity|].
  rewrite !append_String, IH. reflexivity.
Qed.

Lemma obind_Returns {A B} (o : outcome A) (k : A → outcome B) (b : B) :
  obind o k = Returns b → ∃ a, o = Returns a ∧ k a = Returns b.
Proof. destruct o as [a|]; simpl; [eauto | discriminate]. Qed.

Lemma LogLevel_String_returns (ll : LogLevel) :
  (ll <=? None_) = true → ∃ s, LogLevel_String ll = Returns s.
Proof.
  intros H%N.leb_le. unfold None_ in H.
  destruct ll as [|p]; [simpl; eauto|].
  do 3 (try destruct p as [p|p|]); simpl; eauto; lia.
Qed.

Lemma printArg_returns (v : value) (verb : ascii) :
  printable v = true → ∃ s, printArg v verb = Returns s.
Proof.
  intros Hv. destruct v; simpl in *;
    repeat match goal with
           | |- context [if ?b then _ else _] => destruct b
           end; eauto using LogLevel_String_returns.
Qed.

Lemma extra_list_returns (first : bool) (a : list value) :
  forallb printable a = true → ∃ s, extra_list first a = Returns s.
Proof.
  revert first. induction a as [|arg a IH]; intros first Ha; simpl in *.
  - eauto.
  - apply andb_prop in Ha as [Harg Ha].
    destruct (IH false Ha) as [r Hr]. rewrite Hr.
    destruct (printArg_returns arg "v" Harg) as [t Ht].
    destruct arg; simpl in *; try rewrite Ht; simpl; eauto.
Qed.

Lemma extra_returns (a : list value) :
  forallb printable a = true → ∃ s, extra a = Returns s.
Proof.
  intros Ha. destruct a as [|arg a]; [simpl; eauto|].
  destruct (extra_list_returns true _ Ha) as [r Hr].
  unfold extra. rewrite Hr. simpl. eauto.
Qed.

Lemma doPrintf_returns (format : string) :
  ∀ (pct : bool) (a : list value),
    forallb printable a = true → ∃ s, doPrintf pct format a = Returns s.
Proof.
  induction format as [|c rest IH]; intros pct a Ha; simpl.
  - destruct (extra_returns a Ha) as [r ->]. simpl. eauto.
  - destruct pct.
    + destruct (Ascii.eqb c "%").
      * destruct (IH false a Ha) as [r ->]. simpl. eauto.
      * destruct a as [|arg a'].
        -- destruct (IH false [] Ha) as [r ->]. simpl. eauto.
        -- simpl in Ha. apply andb_prop in Ha as [Harg Ha].
           destruct (printArg_returns arg c Harg) as [s ->].
           destruct (IH false a' Ha) as [r ->]. simpl. eauto.
    + destruct (Ascii.eqb c "%").
      * apply IH, Ha.
      * destruct (IH false a Ha) as [r ->]. simpl. eauto.
Qed.

Lemma Sprintf_returns (format : string) (a : list value) :
  forallb printable a = true → ∃ s, Sprintf format a = Returns s.
Proof. apply doPrintf_returns. Qed.

(** A text without [%] is printed as it stands. *)
Lemma Sprintf_no_percent (s : string) :
  no_percent s = true → Sprintf s [] = Returns s.
Proof.
  unfold Sprintf. induction s as [|c s IH]; simpl; [reflexivity|].
  intros [Hc Hs]%andb_prop. destruct (Ascii.eqb c "%"); [discriminate|].
  rewrite (IH Hs). reflexivity.
Qed.

(** ** Tag filters *)

Lemma matchTag_elem (t : string) (logTags : list string) :
  matchTag t logTags = true ↔ t ∈ logTags.
Proof.
  induction logTags as [|t' rest IH]; simpl.
  - split; [discriminate | intros H; inversion H].
  - destruct (String.eqb_spec t t') as [->|Hne].
    + split; [intros _; left | reflexivity].
    + rewrite IH, elem_of_cons. split; [intros H; right; exact H|].
      intros [H|H]; [contradiction | exact H].
Qed.

Lemma matchTags_shared (msgTags logTags : list string) :
  matchTags msgTags logTags = true ↔ ∃ t, t ∈ msgTags ∧ t ∈ logTags.
Proof.
  induction msgTags as [|t rest IH]; simpl.
  - split; [discriminate | intros (t & H & _); inversion H].
  - destruct (matchTag t logTags) eqn:Ht.
    + apply matchTag_elem in Ht. split; [|reflexivity].
      intros _. exists t. split; [left | exact Ht].
    + rewrite IH. split.
      * intros (u & Hu & Hl). exists u. split; [right; exact Hu | exact Hl].
      * intros (u & Hu & Hl). apply elem_of_cons in Hu as [->|Hu].
        -- apply matchTag_elem in Hl. congruence.
        -- eauto.
Qed.

Lemma matchTags_nil_r (msgTags : list string) : matchTags msgTags [] = false.
Proof. induction msgTags; simpl; auto. Qed.

Section LoopFacts.
Context {Inst : Type} (Name : Inst → string) (tags : Inst → list string).

Lemma select_loggers_elem (msgTags : list string) (gologgers : list Inst)
  (l : Inst) :
  l ∈ select_loggers tags msgTags gologgers
  ↔ l ∈ gologgers ∧ passes tags msgTags l.
Proof.
  unfold passes. induction gologgers as [|l0 rest IH]; simpl.
  - split; [intros H; inversion H | intros [H _]; inversion H].
  - assert (Hsel : ∀ l', (tags l' = [] ∨ ∃ t, t ∈ tags l' ∧ t ∈ msgTags)
              ↔ ((0 <? length (tags l'))%nat = false
                 ∨ matchTags msgTags (tags l') = true)).
    { intros l'. rewrite matchTags_shared.
      destruct (tags l') as [|t0 ts]; simpl.
      - split; intros _; left; reflexivity.
      - split; (intros [H|(t & H1 & H2)]; [discriminate | right; eauto]). }
    destruct (0 <? length (tags l0))%nat eqn:Hlen;
      [destruct (matchTags msgTags (tags l0)) eqn:Hm; simpl|];
      rewrite ?elem_of_cons, IH; split.
    + intros [->|[H1 H2]]; [split; [left; reflexivity|]|split; [right|]; auto].
      apply Hsel. right. exact Hm.
    + intros [[->|H1] H2]; [left; reflexivity | right; auto].
    + intros [H1 H2]. split; [right|]; auto.
    + intros [[->|H1] H2]; [|auto].
      apply Hsel in H2 as [H2|H2]; congruence.
    + intros [->|[H1 H2]]; [split; [left; reflexivity|]|split; [right|]; auto].
      apply Hsel. left. exact Hlen.
    + intros [[->|H1] H2]; [left; reflexivity | right; auto].
Qed.

Lemma select_loggers_sublist (msgTags : list string) (gologgers : list Inst) :
  select_loggers tags msgTags gologgers `sublist_of` gologgers.
Proof.
  induction gologgers as [|l0 rest IH]; simpl; [constructor|].
  destruct (0 <? length (tags l0))%nat;
    [destruct (negb (matchTags msgTags (tags l0)))|];
    (by apply sublist_skip) || (by apply sublist_cons).
Qed.

(** With no tag on the message only the instances without a filter
    are left. *)
Lemma select_loggers_no_tags (gologgers : list Inst) (l : Inst) :
  l ∈ select_loggers tags [] gologgers → tags l = [].
Proof.
  intros [_ [H|(t & _ & H)]]%select_loggers_elem; [exact H | inversion H].
Qed.

(** The removal loop keeps, in order, the instances with another name. *)
Lemma deregister_loop_filter (name : string) (n : nat) :
  ∀ (j i : nat) (arr : list Inst),
    length arr = (j + n)%nat → (i ≤ j)%nat →
    take (deregister_loop Name name n j i arr).1
         (deregister_loop Name name n j i arr).2
    = take i arr ++ filter (λ l, Name l ≠ name) (drop j arr).
Proof.
  induction n as [|n IH]; intros j i arr Hlen Hij; simpl.
  - rewrite drop_ge by lia. rewrite filter_nil, app_nil_r. reflexivity.
  - destruct (arr !! j) as [l|] eqn:Hj.
    2: { apply lookup_ge_None in Hj. lia. }
    rewrite (drop_S _ _ _ Hj).
    destruct (String.eqb_spec (Name l) name) as [Heq|Hne].
    + rewrite IH by lia. rewrite filter_cons_False by (intros H; exact (H Heq)).
      reflexivity.
    + rewrite IH by (rewrite ?length_insert; lia).
      rewrite filter_cons_True by exact Hne.
      assert (Hi : (i < length arr)%nat) by lia.
      rewrite (take_S_r _ _ l) by (apply list_lookup_insert_eq; exact Hi).
      rewrite take_insert_ge by lia.
      rewrite drop_insert_lt by lia.
      rewrite <- app_assoc. reflexivity.
Qed.

Lemma deregister_filter (name : string) (gologgers : list Inst) :
  deregister Name name gologgers = filter (λ l, Name l ≠ name) gologgers.
Proof.
  unfold deregister.
  pose proof (deregister_loop_filter name (length gologgers) 0 0 gologgers
                eq_refl (le_n 0)) as H.
  destruct (deregister_loop Name name (length gologgers) 0 0 gologgers)
    as [i arr]. simpl in H. exact H.
Qed.
End LoopFacts.

(** ** The loop over the selected loggers *)

Lemma for_loggers_returns {Inst Ev : Type} (body : nat → Inst → outcome Ev)
  (loggers : list Inst) :
  (∀ i l, l ∈ loggers → ∃ e, body i l = Returns e) →
  ∀ k, ∃ evs, for_loggers body k loggers = Returns evs.
Proof.
  induction loggers as [|l rest IH]; intros Hbody k; simpl; [eauto|].
  destruct (Hbody k l) as [e ->]; [left|].
  destruct (IH (λ i l' Hl', Hbody i l' (list_elem_of_further _ _ _ Hl')) (S k))
    as [es ->].
  simpl. eauto.
Qed.

Lemma for_loggers_lookup {Inst Ev : Type} (body : nat → Inst → outcome Ev)
  (loggers : list Inst) :
  ∀ k evs, for_loggers body k loggers = Returns evs →
    length evs = length loggers
    ∧ ∀ i l, loggers !! i = Some l →
        ∃ e, evs !! i = Some e ∧ body (k + i)%nat l = Returns e.
Proof.
  induction loggers as [|l rest IH]; intros k evs; simpl.
  - intros [= <-]. split; [reflexivity|]. intros i l Hl. inversion Hl.
  - intros (e & He & (es & Hes & [= <-])%obind_Returns)%obind_Returns.
    destruct (IH _ _ Hes) as [Hlen Hlook]. split; [simpl; lia|].
    intros [|i] l' Hl'; simpl in Hl'.
    + injection Hl' as <-. exists e. rewrite Nat.add_0_r. auto.
    + destruct (Hlook i l' Hl') as (e' & He' & Hb). exists e'.
      split; [exact He'|]. replace (k + S i)%nat with (S k + i)%nat by lia.
      exact Hb.
Qed.

Lemma for_loggers_sinks {Inst Ev : Type} (sink : Ev → Inst)
  (body : nat → Inst → outcome Ev) (loggers : list Inst) :
  (∀ i l e, body i l = Returns e → sink e = l) →
  ∀ k evs, for_loggers body k loggers = Returns evs → map sink evs = loggers.
Proof.
  intros Hbody. induction loggers as [|l rest IH]; intros k evs; simpl.
  - intros [= <-]. reflexivity.
  - intros (e & He & (es & Hes & [= <-])%obind_Returns)%obind_Returns.
    simpl. rewrite (Hbody _ _ _ He), (IH _ _ Hes). reflexivity.
Qed.

Lemma Sprintf_nil (format : string) :
  Sprintf format [] = Returns (Sprintf0 format).
Proof.
  unfold Sprintf0. destruct (Sprintf_returns format [] eq_refl) as [s ->].
  reflexivity.
Qed.

Lemma Sprintf0_no_percent (s : string) : no_percent s = true → Sprintf0 s = s.
Proof. intros H. unfold Sprintf0. rewrite (Sprintf_no_percent s H). reflexivity. Qed.

(** ** Delivery in the fixed-layout variant *)

Lemma Fixed_render_returns (msg : Fixed.Message) :
  Fixed_well_formed msg = true → ∃ line, Fixed.render msg = Returns line.
Proof.
  unfold Fixed_well_formed, Fixed.render, Fixed.printf_call.
  intros [[Hl Hs]%andb_prop He]%andb_prop.
  destruct (Sprintf_returns (Fixed.Format msg) _ He) as [body ->]. simpl.
  destruct (Fixed.Subject msg) eqn:Hsub; simpl;
    apply Sprintf_returns; simpl in *; rewrite ?Hl, ?Hs; reflexivity.
Qed.

(** A write of the loop: the line of the layout, through the logger of
    the instance. *)
Lemma Fixed_print_inv (clock : nat → string) (msg : Fixed.Message)
  (i : nat) (l : Fixed.Instance) (e : Fixed.Event) :
  Fixed.print clock msg i l = Returns e →
  Fixed.ev_sink e = l
  ∧ ∃ line lg, Fixed.render msg = Returns line
               ∧ Fixed.log l = Some lg
               ∧ Fixed.ev_out e = lg_out lg
               ∧ Fixed.ev_data e = (Output lg (clock i) line).2.
Proof.
  unfold Fixed.print, Fixed.render, Logger_Printf.
  intros (call & Hcall & Hrest)%obind_Returns.
  destruct (Fixed.log l) as [lg|]; [|discriminate].
  apply obind_Returns in Hrest as (wb & (line & Hline & [= <-])%obind_Returns
                                      & [= <-]).
  split; [reflexivity|]. exists line, lg. rewrite Hcall. simpl. auto.
Qed.

Lemma Fixed_print_returns (clock : nat → string) (msg : Fixed.Message)
  (i : nat) (l : Fixed.Instance) :
  Fixed_well_formed msg = true → Fixed_stamped l →
  ∃ e, Fixed.print clock msg i l = Returns e.
Proof.
  intros (line & Hline)%Fixed_render_returns (lg & Hlg & _).
  unfold Fixed.render in Hline.
  apply obind_Returns in Hline as (call & Hcall & Hline).
  unfold Fixed.print, Logger_Printf. rewrite Hcall, Hlg. simpl.
  rewrite Hline. simpl. eauto.
Qed.

Lemma Fixed_deliver_sinks (clock : nat → string) (st : Fixed.State)
  (msg : Fixed.Message) (evs : list Fixed.Event) :
  Fixed.deliver clock st msg = Returns evs →
  map Fixed.ev_sink evs
  = if Fixed.Level msg <? Fixed.level st then []
    else select_loggers Fixed.tags (Fixed.Tags msg) (Fixed.gologgers st).
Proof.
  unfold Fixed.deliver. destruct (Fixed.Level msg <? Fixed.level st).
  { intros [= <-]. reflexivity. }
  destruct (select_loggers _ _ _) as [|l0 ls] eqn:Hsel.
  { intros [= <-]. reflexivity. }
  cbn [length Nat.eqb]. apply for_loggers_sinks.
  intros i l e [He _]%Fixed_print_inv. exact He.
Qed.

Lemma Fixed_deliver_lookup (clock : nat → string) (st : Fixed.State)
  (msg : Fixed.Message) (evs : list Fixed.Event) :
  Fixed.deliver clock st msg = Returns evs →
  (Fixed.Level msg <? Fixed.level st) = false →
  ∀ i l,
    select_loggers Fixed.tags (Fixed.Tags msg) (Fixed.gologgers st) !! i
    = Some l →
    ∃ e, evs !! i = Some e ∧ Fixed.print clock msg i l = Returns e.
Proof.
  unfold Fixed.deliver. intros Hd Hlt. rewrite Hlt in Hd.
  destruct (select_loggers _ _ _) as [|l0 ls] eqn:Hsel.
  { intros i l Hl. inversion Hl. }
  cbn [length Nat.eqb] in Hd.
  apply for_loggers_lookup in Hd as [_ Hd]. exact Hd.
Qed.

Lemma Fixed_deliver_returns (clock : nat → string) (st : Fixed.State)
  (msg : Fixed.Message) :
  Fixed_well_formed msg = true →
  Forall Fixed_stamped (Fixed.gologgers st) →
  ∃ evs, Fixed.deliver clock st msg = Returns evs.
Proof.
  intros Hwf Hinv. unfold Fixed.deliver.
  destruct (Fixed.Level msg <? Fixed.level st); [eauto|].
  destruct (select_loggers _ _ _) as [|l0 ls] eqn:Hsel; [simpl; eauto|].
  cbn [length Nat.eqb]. apply for_loggers_returns.
  intros i l Hl. apply Fixed_print_returns; [exact Hwf|].
  rewrite Forall_forall in Hinv. apply Hinv.
  rewrite <- Hsel in Hl. apply select_loggers_elem in Hl as [Hl _]. exact Hl.
Qed.

(** ** Delivery in the token-template variant *)

Lemma Token_fill_returns (msg : Token.Message) :
  Token_well_formed msg = true →
  ∃ m body subject lvl,
    Token.values msg = Some m
    ∧ Sprintf (Token.MFormat msg) (Token.Elements msg) = Returns body
    ∧ Sprintf "%v" [Token.Subject msg] = Returns subject
    ∧ LogLevel_String (Token.Level msg) = Returns lvl
    ∧ Token.fill msg
      = Returns (<[Token.ExpandMessageLevel := lvl]>
                   (<[Token.ExpandSubject := subject]>
                      (<[Token.ExpandMessage := body]> m))).
Proof.
  unfold Token_well_formed, Token.fill.
  intros [[[Hl Hs]%andb_prop He]%andb_prop Hv]%andb_prop.
  apply bool_decide_eq_true in Hv as [m Hm].
  destruct (Sprintf_returns (Token.MFormat msg) _ He) as [body Hb].
  destruct (Sprintf_returns "%v" [Token.Subject msg]) as [subject Hsub].
  { simpl. rewrite Hs. reflexivity. }
  destruct (LogLevel_String_returns _ Hl) as [lvl Hlvl].
  exists m, body, subject, lvl. rewrite Hm, Hb, Hsub, Hlvl. simpl.
  repeat split.
Qed.

(** A write of the loop: the expanded format, printed with no operand,
    through the logger of the instance. *)
Lemma Token_print_inv (clock : nat → string) (orders : nat → list string)
  (vals : gmap string string) (i : nat) (l : Token.Instance)
  (e : Token.Event) :
  Token.print clock orders vals i l = Returns e →
  Token.ev_sink e = l
  ∧ ∃ lg, Token.log l = Some lg
          ∧ Token.ev_out e = lg_out lg
          ∧ Token.ev_data e
            = (Output lg (clock i)
                 (Sprintf0 (Token.expand (orders i) (Token.Format l) vals))).2.
Proof.
  unfold Token.print, Logger_Printf.
  destruct (Token.log l) as [lg|]; [|discriminate].
  rewrite Sprintf_nil. simpl. intros [= <-].
  split; [reflexivity|]. exists lg. auto.
Qed.

Lemma Token_print_returns (clock : nat → string) (orders : nat → list string)
  (vals : gmap string string) (i : nat) (l : Token.Instance) :
  Token_initialized l → ∃ e, Token.print clock orders vals i l = Returns e.
Proof.
  unfold Token_initialized, Token.print, Logger_Printf. intros ->.
  rewrite Sprintf_nil. simpl. eauto.
Qed.

Lemma Token_deliver_sinks (clock : nat → string) (orders : nat → list string)
  (st : Token.State) (msg : Token.Message) (evs : list Token.Event) :
  Token.deliver clock orders st msg = Returns evs →
  map Token.ev_sink evs
  = if Token.Level msg <? Token.level st then []
    else select_loggers Token.tags (Token.Tags msg) (Token.gologgers st).
Proof.
  unfold Token.deliver. destruct (Token.Level msg <? Token.level st).
  { intros [= <-]. reflexivity. }
  destruct (select_loggers _ _ _) as [|l0 ls] eqn:Hsel.
  { intros [= <-]. reflexivity. }
  cbn [length Nat.eqb]. intros (vals & _ & Hloop)%obind_Returns.
  revert Hloop. apply for_loggers_sinks.
  intros i l e [He _]%Token_print_inv. exact He.
Qed.

Lemma Token_deliver_lookup (clock : nat → string) (orders : nat → list string)
  (st : Token.State) (msg : Token.Message) (vals : gmap string string)
  (evs : list Token.Event) :
  Token.deliver clock orders st msg = Returns evs →
  Token.fill msg = Returns vals →
  (Token.Level msg <? Token.level st) = false →
  ∀ i l,
    select_loggers Token.tags (Token.Tags msg) (Token.gologgers st) !! i
    = Some l →
    ∃ e, evs !! i = Some e ∧ Token.print clock orders vals i l = Returns e.
Proof.
  unfold Token.deliver. intros Hd Hf Hlt. rewrite Hlt in Hd.
  destruct (select_loggers _ _ _) as [|l0 ls] eqn:Hsel.
  { intros i l Hl. inversion Hl. }
  cbn [length Nat.eqb] in Hd. rewrite Hf in Hd. cbn [obind] in Hd.
  apply for_loggers_lookup in Hd as [_ Hd]. exact Hd.
Qed.

Lemma Token_deliver_returns (clock : nat → string) (orders : nat → list string)
  (st : Token.State) (msg : Token.Message) :
  Token_well_formed msg = true →
  Forall Token_initialized (Token.gologgers st) →
  ∃ evs, Token.deliver clock orders st msg = Returns evs.
Proof.
  intros (m & body & subject & lvl & _ & _ & _ & _ & Hf)%Token_fill_returns Hinv.
  unfold Token.deliver.
  destruct (Token.Level msg <? Token.level st); [eauto|].
  destruct (select_loggers _ _ _) as [|l0 ls] eqn:Hsel; [simpl; eauto|].
  cbn [length Nat.eqb]. rewrite Hf. cbn [obind].
  apply for_loggers_returns.
  intros i l Hl. apply Token_print_returns.
  rewrite Forall_forall in Hinv. apply Hinv.
  rewrite <- Hsel in Hl. apply select_loggers_elem in Hl as [Hl _]. exact Hl.
Qed.

(** ** The loggers of the registered instances *)

Lemma Fixed_initialize_stamped (i : Fixed.Instance) :
  Fixed_stamped (Fixed.initialize i).
Proof. eexists. split; reflexivity. Qed.

Lemma Token_initialize_initialized (i : Token.Instance) :
  Token_initialized (Token.initialize i).
Proof. reflexivity. Qed.

Lemma Fixed_stamped_step (clock : nat → string) (st st' : Fixed.State)
  (c : Fixed.Command) (evs : list Fixed.Event) :
  Forall Fixed_stamped (Fixed.gologgers st) → Fixed_sent c →
  Fixed.step clock st c = Returns (st', evs) →
  Forall Fixed_stamped (Fixed.gologgers st').
Proof.
  intros Hinv Hc. destruct c as [l|name|ll|prfx|msg]; cbn [Fixed.step].
  - intros [= <- _]. cbn. apply Forall_app. split; [exact Hinv|].
    constructor; [exact Hc | constructor].
  - intros [= <- _]. cbn. rewrite deregister_filter.
    apply Forall_forall. intros l [_ Hl]%list_elem_of_filter.
    rewrite Forall_forall in Hinv. auto.
  - intros [= <- _]. exact Hinv.
  - intros [= <- _]. cbn. apply Forall_forall.
    intros l (l0 & -> & _)%list_elem_of_fmap. eexists. split; reflexivity.
  - intros (evs' & _ & [= <- _])%obind_Returns. exact Hinv.
Qed.

Lemma Token_initialized_step (clock : nat → string)
  (orders : nat → list string) (st st' : Token.State)
  (c : Token.Command) (evs : list Token.Event) :
  Forall Token_initialized (Token.gologgers st) → Token_sent c →
  Token.step clock orders st c = Returns (st', evs) →
  Forall Token_initialized (Token.gologgers st').
Proof.
  intros Hinv Hc. destruct c as [l|name|ll|msg]; cbn [Token.step].
  - intros [= <- _]. cbn. apply Forall_app. split; [exact Hinv|].
    constructor; [exact Hc | constructor].
  - intros [= <- _]. cbn. rewrite deregister_filter.
    apply Forall_forall. intros l [_ Hl]%list_elem_of_filter.
    rewrite Forall_forall in Hinv. auto.
  - intros [= <- _]. exact Hinv.
  - intros (evs' & _ & [= <- _])%obind_Returns. exact Hinv.
Qed.

(** Every state the dispatcher gets to has its loggers in place. *)
Lemma Fixed_reachable_stamped (st : Fixed.State) :
  Fixed_reachable st → Forall Fixed_stamped (Fixed.gologgers st).
Proof.
  induction 1 as [|clock st c st' evs _ IH Hc Hstep].
  - repeat constructor; apply Fixed_initialize_stamped.
  - exact (Fixed_stamped_step clock st st' c evs IH Hc Hstep).
Qed.

Lemma Token_reachable_initialized (st : Token.State) :
  Token_reachable st → Forall Token_initialized (Token.gologgers st).
Proof.
  induction 1 as [|clock orders st c st' evs _ IH Hc Hstep].
  - repeat constructor.
  - exact (Token_initialized_step clock orders st st' c evs IH Hc Hstep).
Qed.

Lemma Fixed_two_sinks_stamped : Forall Fixed_stamped (Fixed.gologgers Fixed_two_sinks).
Proof. repeat constructor; apply Fixed_initialize_stamped. Qed.

Lemma Fixed_initial_stamped : Forall Fixed_stamped (Fixed.gologgers Fixed.initial).
Proof. repeat constructor; apply Fixed_initialize_stamped. Qed.

Lemma Token_two_sinks_initialized :
  Forall Token_initialized (Token.gologgers Token_two_sinks).
Proof. repeat constructor. Qed.

Lemma Token_initial_initialized :
  Forall Token_initialized (Token.gologgers Token.initial).
Proof. repeat constructor. Qed.

(** ** The claims *)

(** C1.  A message below the threshold is dropped by the dispatcher of
    either variant: the turn returns, the state is the same and nothing
    is written.  A message at or above the threshold, with a severity of
    the defined set, is delivered to the instances that [initialize] has
    set up: the turn returns, the state is the same, and the instances
    written to are the ones the tag filter selects, in their order. *)
Theorem threshold_gate
  (clock : nat → string) (orders : nat → list string)
  (fs : Fixed.State) (fm : Fixed.Message)
  (ts : Token.State) (tm : Token.Message) :
  (Fixed.Level fm < Fixed.level fs →
   Fixed.step clock fs (Fixed.Sink fm) = Returns (fs, []))
  ∧ (Fixed_well_formed fm = true →
     Forall Fixed_stamped (Fixed.gologgers fs) →
     Fixed.level fs ≤ Fixed.Level fm →
     ∃ evs, Fixed.step clock fs (Fixed.Sink fm) = Returns (fs, evs)
            ∧ map Fixed.ev_sink evs
              = select_loggers Fixed.tags (Fixed.Tags fm) (Fixed.gologgers fs))
  ∧ (Token.Level tm < Token.level ts →
     Token.step clock orders ts (Token.Sink tm) = Returns (ts, []))
  ∧ (Token_well_formed tm = true →
     Forall Token_initialized (Token.gologgers ts) →
     Token.level ts ≤ Token.Level tm →
     ∃ evs, Token.step clock orders ts (Token.Sink tm) = Returns (ts, evs)
            ∧ map Token.ev_sink evs
              = select_loggers Token.tags (Token.Tags tm) (Token.gologgers ts)).
Proof.
  repeat split.
  - intros Hlt%N.ltb_lt. simpl. unfold Fixed.deliver. rewrite Hlt. reflexivity.
  - intros Hwf Hinv Hge%N.ltb_ge.
    destruct (Fixed_deliver_returns clock fs fm Hwf Hinv) as [evs Hd].
    exists evs. simpl. rewrite Hd. split; [reflexivity|].
    rewrite (Fixed_deliver_sinks _ _ _ _ Hd), Hge. reflexivity.
  - intros Hlt%N.ltb_lt. simpl. unfold Token.deliver. rewrite Hlt. reflexivity.
  - intros Hwf Hinv Hge%N.ltb_ge.
    destruct (Token_deliver_returns clock orders ts tm Hwf Hinv) as [evs Hd].
    exists evs. simpl. rewrite Hd. split; [reflexivity|].
    rewrite (Token_deliver_sinks _ _ _ _ _ Hd), Hge. reflexivity.
Qed.

Lemma threshold_gate_witness :
  Fixed.step clock0 Fixed.initial (Fixed.Sink (Fixed.Log Debug VNil "tick" []))
  = Returns (Fixed.initial, [])
  ∧ (∃ evs, Fixed.step clock0 Fixed.initial
              (Fixed.Sink (Fixed.Log Warning (VString "auth")
                             "failed %d times" [VInt 3]))
            = Returns (Fixed.initial, evs)
            ∧ map Fixed.ev_sink evs = [Fixed_default])
  ∧ Token.step clock0 orders0 Token.initial
      (Token.Sink (Token.Log "main.main" 42 "t" "d" Debug VNil "tick" []))
    = Returns (Token.initial, [])
  ∧ (∃ evs, Token.step clock0 orders0 Token.initial
              (Token.Sink (Token.Log "main.main" 42 "t" "d" Error VNil "x" []))
            = Returns (Token.initial, evs)
            ∧ map Token.ev_sink evs = [Token_default]).
Proof.
  pose proof (threshold_gate clock0 orders0
                Fixed.initial (Fixed.Log Debug VNil "tick" [])
                Token.initial
                (Token.Log "main.main" 42 "t" "d" Debug VNil "tick" []))
    as (Hf & _ & Ht & _).
  pose proof (threshold_gate clock0 orders0
                Fixed.initial
                (Fixed.Log Warning (VString "auth") "failed %d times" [VInt 3])
                Token.initial
                (Token.Log "main.main" 42 "t" "d" Error VNil "x" []))
    as (_ & Hf' & _ & Ht').
  split; [apply Hf; reflexivity|].
  split; [apply Hf'; [reflexivity | exact Fixed_initial_stamped | discriminate]|].
  split; [apply Ht; reflexivity|].
  apply Ht'; [reflexivity | exact Token_initial_initialized | discriminate].
Defined.

(** The three cases of the tag filter, for an instance [l] of the list,
    once membership in the selection is unfolded. *)
Ltac route_cases Hl :=
  unfold passes; split; [|split];
  [ intros Hno; auto
  | intros Hne; split;
    [ intros [_ [H|H]]; [contradiction | exact H] | intros H; auto ]
  | let t := fresh "t" in
    intros Hne Hnil [_ [H|(t & _ & H)]]; [contradiction|];
    rewrite Hnil in H; inversion H ].

(** C2.  For a message that passes the threshold, with tags [T], and a
    registered instance [l]: without a filter [l] receives the message
    whatever [T] is; with a filter [F] it receives the message exactly
    when [F] and [T] share a tag; and with a filter it never receives a
    message without tags.  This holds in both variants. *)
Theorem tag_filter_routing
  (clock : nat → string) (orders : nat → list string)
  (fs : Fixed.State) (fm : Fixed.Message)
  (ts : Token.State) (tm : Token.Message) :
  Fixed_well_formed fm = true → Token_well_formed tm = true →
  Forall Fixed_stamped (Fixed.gologgers fs) →
  Forall Token_initialized (Token.gologgers ts) →
  Fixed.level fs ≤ Fixed.Level fm → Token.level ts ≤ Token.Level tm →
  (∃ evs, Fixed.deliver clock fs fm = Returns evs
     ∧ ∀ l, l ∈ Fixed.gologgers fs →
         (Fixed.tags l = [] → l ∈ map Fixed.ev_sink evs)
         ∧ (Fixed.tags l ≠ [] →
            (l ∈ map Fixed.ev_sink evs
             ↔ ∃ t, t ∈ Fixed.tags l ∧ t ∈ Fixed.Tags fm))
         ∧ (Fixed.tags l ≠ [] → Fixed.Tags fm = [] →
            l ∉ map Fixed.ev_sink evs))
  ∧ (∃ evs, Token.deliver clock orders ts tm = Returns evs
     ∧ ∀ l, l ∈ Token.gologgers ts →
         (Token.tags l = [] → l ∈ map Token.ev_sink evs)
         ∧ (Token.tags l ≠ [] →
            (l ∈ map Token.ev_sink evs
             ↔ ∃ t, t ∈ Token.tags l ∧ t ∈ Token.Tags tm))
         ∧ (Token.tags l ≠ [] → Token.Tags tm = [] →
            l ∉ map Token.ev_sink evs)).
Proof.
  intros Hfw Htw Hfi Hti Hfl%N.ltb_ge Htl%N.ltb_ge. split.
  - destruct (Fixed_deliver_returns clock fs fm Hfw Hfi) as [evs Hd].
    exists evs. split; [exact Hd|].
    rewrite (Fixed_deliver_sinks _ _ _ _ Hd), Hfl.
    intros l Hl. rewrite select_loggers_elem. route_cases Hl.
  - destruct (Token_deliver_returns clock orders ts tm Htw Hti) as [evs Hd].
    exists evs. split; [exact Hd|].
    rewrite (Token_deliver_sinks _ _ _ _ _ Hd), Htl.
    intros l Hl. rewrite select_loggers_elem. route_cases Hl.
Qed.

Lemma tag_filter_routing_witness :
  (∃ evs, Fixed.deliver clock0 Fixed_two_sinks (Fixed_tagged "http") = Returns evs
          ∧ Fixed_S2 ∈ map Fixed.ev_sink evs
          ∧ Fixed_S1 ∉ map Fixed.ev_sink evs)
  ∧ (∃ evs, Token.deliver clock0 orders0 Token_two_sinks (Token_tagged "db")
            = Returns evs
            ∧ Token_S2 ∈ map Token.ev_sink evs
            ∧ Token_S1 ∈ map Token.ev_sink evs).
Proof.
  destruct (tag_filter_routing clock0 orders0
              Fixed_two_sinks (Fixed_tagged "http")
              Token_two_sinks (Token_tagged "db"))
    as [(fe & Hfd & Hf) (te & Htd & Ht)];
    [reflexivity | reflexivity | exact Fixed_two_sinks_stamped
    | exact Token_two_sinks_initialized | discriminate | discriminate |].
  destruct (Hf Fixed_S2) as (Hf2 & _ & _); [right; left|].
  destruct (Hf Fixed_S1) as (_ & Hf1 & _); [left|].
  destruct (Ht Token_S2) as (Ht2 & _ & _); [right; left|].
  destruct (Ht Token_S1) as (_ & Ht1 & _); [left|].
  split.
  - exists fe. split; [exact Hfd|]. split.
    + apply Hf2. reflexivity.
    + intros Hin. apply Hf1 in Hin as (t & Hin1 & Hin2); [|discriminate].
      apply list_elem_of_singleton in Hin1, Hin2. congruence.
  - exists te. split; [exact Htd|]. split.
    + apply Ht2. reflexivity.
    + apply Ht1; [discriminate|]. exists "db". split; left.
Defined.

(** C10.  [Log] builds its message with no tag, in both variants; so no
    turn of the dispatcher on such a message writes to an instance that
    has a tag filter. *)
Theorem Log_skips_filtered_instances
  (clock : nat → string) (orders : nat → list string)
  (fs : Fixed.State) (ts : Token.State)
  (name : string) (line : Z) (now since : string)
  (lvl : LogLevel) (subject : value) (format : string)
  (elements : list value) :
  Fixed.Tags (Fixed.Log lvl subject format elements) = []
  ∧ Token.Tags (Token.Log name line now since lvl subject format elements) = []
  ∧ (∀ st' evs l,
       Fixed.step clock fs (Fixed.Sink (Fixed.Log lvl subject format elements))
       = Returns (st', evs) →
       Fixed.tags l ≠ [] → l ∉ map Fixed.ev_sink evs)
  ∧ (∀ st' evs l,
       Token.step clock orders ts
         (Token.Sink (Token.Log name line now since lvl subject format elements))
       = Returns (st', evs) →
       Token.tags l ≠ [] → l ∉ map Token.ev_sink evs).
Proof.
  split; [reflexivity|]. split; [reflexivity|]. split.
  - intros st' evs l. cbn [Fixed.step].
    intros (evs' & Hd & [= _ <-])%obind_Returns Hne Hin.
    rewrite (Fixed_deliver_sinks _ _ _ _ Hd) in Hin.
    destruct (_ <? _); [inversion Hin|].
    apply select_loggers_no_tags in Hin. contradiction.
  - intros st' evs l. cbn [Token.step].
    intros (evs' & Hd & [= _ <-])%obind_Returns Hne Hin.
    rewrite (Token_deliver_sinks _ _ _ _ _ Hd) in Hin.
    destruct (_ <? _); [inversion Hin|].
    apply select_loggers_no_tags in Hin. contradiction.
Qed.

Lemma Log_skips_filtered_instances_witness :
  ∃ evs,
    Fixed.step clock0 Fixed_two_sinks
      (Fixed.Sink (Fixed.Log Error VNil "x" []))
    = Returns (Fixed_two_sinks, evs)
    ∧ map Fixed.ev_sink evs = [Fixed_S2]
    ∧ Fixed_S1 ∉ map Fixed.ev_sink evs.
Proof.
  eexists. split; [reflexivity|]. split; [reflexivity|].
  destruct (Log_skips_filtered_instances clock0 orders0 Fixed_two_sinks
              Token_two_sinks "main.main" 42 "t" "d" Error VNil "x" [])
    as (_ & _ & Hf & _).
  apply (Hf Fixed_two_sinks); [reflexivity | discriminate].
Defined.

(** C6.  [String] gives each severity of the defined set its label of
    four characters, and on every other value of the type it does not
    return: the call crashes. *)
Theorem LogLevel_String_labels :
  LogLevel_String All = Returns "ALL "
  ∧ LogLevel_String Trace = Returns "TRC "
  ∧ LogLevel_String Debug = Returns "DBG "
  ∧ LogLevel_String Info = Returns "INFO"
  ∧ LogLevel_String Warning = Returns "WARN"
  ∧ LogLevel_String Error = Returns "ERR "
  ∧ LogLevel_String None_ = Returns "NONE"
  ∧ (∀ ll s, LogLevel_String ll = Returns s →
             ll ∈ defined_levels ∧ String.length s = 4%nat)
  ∧ (∀ ll, ll ∉ defined_levels → LogLevel_String ll = Crashes).
Proof.
  assert (Hcases : ∀ ll : LogLevel,
             ll ∈ defined_levels ∨ LogLevel_String ll = Crashes).
  { intros [|p]; [left; left|].
    do 3 (try destruct p as [p|p|]); simpl; auto;
      left; unfold defined_levels, All, Trace, Debug, Info, Warning, Error, None_;
      repeat ((by left) || right). }
  do 7 (split; [reflexivity|]). split.
  - intros ll s Hs. destruct (Hcases ll) as [Hin|Hc]; [|congruence].
    split; [exact Hin|].
    unfold defined_levels in Hin.
    repeat (apply elem_of_cons in Hin as [->|Hin]; [by inversion Hs|]).
    inversion Hin.
  - intros ll Hout. destruct (Hcases ll) as [Hin|Hc]; [contradiction | exact Hc].
Qed.

Lemma LogLevel_String_labels_witness :
  LogLevel_String 7 = Crashes ∧ LogLevel_String 255 = Crashes.
Proof.
  destruct LogLevel_String_labels as (_ & _ & _ & _ & _ & _ & _ & _ & Hout).
  split; apply Hout; unfold defined_levels; intros Hin;
    repeat (apply elem_of_cons in Hin as [Hin|Hin]; [discriminate Hin|]);
    inversion Hin.
Defined.

Lemma filter_all {A : Type} (P : A → Prop) `{∀ x, Decision (P x)} (l : list A) :
  (∀ x, x ∈ l → P x) → filter P l = l.
Proof.
  induction l as [|x l IH]; intros Hall; [reflexivity|].
  rewrite filter_cons_True by (apply Hall; left).
  f_equal. apply IH. intros y Hy. apply Hall. right. exact Hy.
Qed.

(** C7.  A turn on [DeRegisterLogger name] returns, writes nothing and
    leaves as the list of instances the old list without the instances
    named [name], the others in their order; when no instance has that
    name the state is the same.  Both variants. *)
Theorem DeRegister_removes_named
  (clock : nat → string) (orders : nat → list string) (name : string)
  (fs : Fixed.State) (ts : Token.State) :
  Fixed.step clock fs (Fixed.DeRegisterLogger name)
  = Returns ({| Fixed.gologgers :=
                  filter (λ l, Fixed.Name l ≠ name) (Fixed.gologgers fs);
                Fixed.level := Fixed.level fs;
                Fixed.prefix := Fixed.prefix fs |}, [])
  ∧ Token.step clock orders ts (Token.DeRegisterLogger name)
    = Returns ({| Token.gologgers :=
                    filter (λ l, Token.Name l ≠ name) (Token.gologgers ts);
                  Token.level := Token.level ts |}, [])
  ∧ ((∀ l, l ∈ Fixed.gologgers fs → Fixed.Name l ≠ name) →
     Fixed.step clock fs (Fixed.DeRegisterLogger name) = Returns (fs, []))
  ∧ ((∀ l, l ∈ Token.gologgers ts → Token.Name l ≠ name) →
     Token.step clock orders ts (Token.DeRegisterLogger name)
     = Returns (ts, [])).
Proof.
  cbn [Fixed.step Token.step]. rewrite !deregister_filter.
  split; [reflexivity|]. split; [reflexivity|]. split.
  - intros Hall. rewrite (filter_all _ _ Hall). destruct fs; reflexivity.
  - intros Hall. rewrite (filter_all _ _ Hall). destruct ts; reflexivity.
Qed.

Lemma DeRegister_removes_named_witness :
  Fixed.step clock0 Fixed_two_sinks (Fixed.DeRegisterLogger "S1")
  = Returns ({| Fixed.gologgers := [Fixed_S2];
                Fixed.level := Info; Fixed.prefix := "" |}, [])
  ∧ Token.step clock0 orders0 Token_two_sinks (Token.DeRegisterLogger "S3")
    = Returns (Token_two_sinks, []).
Proof.
  destruct (DeRegister_removes_named clock0 orders0 "S1"
              Fixed_two_sinks Token_two_sinks) as (Hf & _ & _ & _).
  destruct (DeRegister_removes_named clock0 orders0 "S3"
              Fixed_two_sinks Token_two_sinks) as (_ & _ & _ & Ht).
  split; [exact Hf|]. apply Ht.
  intros l Hl. unfold Token_two_sinks in Hl. cbn [Token.gologgers] in Hl.
  repeat (apply elem_of_cons in Hl as [->|Hl]; [discriminate|]).
  inversion Hl.
Defined.

(** C4.  The fixed layout.  With [label] the display name of the level
    and [body] the format of the message filled with its elements, the
    line is ["[label] body"] when the subject is nil and
    ["[label] subject, body"] when it is not, [subject] printed with
    [%v]. *)
Theorem fixed_layout_line (msg : Fixed.Message) (label body : string) :
  LogLevel_String (Fixed.Level msg) = Returns label →
  Sprintf (Fixed.Format msg) (Fixed.Elements msg) = Returns body →
  (Fixed.Subject msg = VNil →
   Fixed.render msg = Returns ("[" +:+ label +:+ "] " +:+ body))
  ∧ (∀ text, Fixed.Subject msg ≠ VNil →
       printArg (Fixed.Subject msg) "v" = Returns text →
       Fixed.render msg
       = Returns ("[" +:+ label +:+ "] " +:+ text +:+ ", " +:+ body)).
Proof.
  intros Hlabel Hbody. unfold Fixed.render, Fixed.printf_call.
  rewrite Hbody. cbn [obind]. split.
  - intros ->. cbn. rewrite Hlabel. cbn.
    change ("" +:+ "") with "". rewrite append_empty_r. reflexivity.
  - intros text Hsub Htext.
    destruct (Fixed.Subject msg) eqn:Hs; [contradiction|..];
      cbn in Htext |- *; rewrite Hlabel; cbn;
      first [injection Htext as <- | rewrite Htext]; cbn;
      change ("" +:+ "") with ""; rewrite append_empty_r; reflexivity.
Qed.

Lemma fixed_layout_line_witness :
  Fixed.render (Fixed.Log Warning (VString "auth") "failed %d times" [VInt 3])
  = Returns "[WARN] auth, failed 3 times"
  ∧ Fixed.render (Fixed.Log Debug VNil "tick" []) = Returns "[DBG ] tick".
Proof.
  split.
  - apply (proj2 (fixed_layout_line
                    (Fixed.Log Warning (VString "auth") "failed %d times" [VInt 3])
                    "WARN" "failed 3 times" eq_refl eq_refl) "auth");
      [discriminate | reflexivity].
  - apply (proj1 (fixed_layout_line (Fixed.Log Debug VNil "tick" [])
                    "DBG " "tick" eq_refl eq_refl)). reflexivity.
Defined.

(** ** [strings.Replace] is a global replacement *)

Lemma prefix_append (p s : string) : String.prefix p (p +:+ s) = true.
Proof.
  induction p as [|c p IH]; [destruct s; reflexivity|].
  rewrite append_String. simpl. destruct (ascii_dec c c); [exact IH | contradiction].
Qed.

Lemma replace_from_skip (old new p s : string) :
  replace_from old new (String.length p) (p +:+ s) = replace_from old new 0 s.
Proof.
  induction p as [|c p IH]; [reflexivity|].
  rewrite append_String. simpl. exact IH.
Qed.

(** An instance at the head is replaced, and the scan goes on after it. *)
Lemma Replace_here (old new post : string) :
  old ≠ "" → Replace (old +:+ post) old new = new +:+ Replace post old new.
Proof.
  intros Hold. unfold Replace. destruct (String.eqb_spec old new) as [->|Hne];
    [reflexivity|].
  destruct old as [|a o]; [contradiction|].
  rewrite append_String. cbn [replace_from].
  rewrite <- (append_String a o post), prefix_append.
  replace (String.length (String a o) - 1)%nat with (String.length o)
    by (simpl; lia).
  rewrite replace_from_skip. reflexivity.
Qed.

(** A byte where no instance starts is kept. *)
Lemma Replace_skip (old new : string) (c : ascii) (s : string) :
  old ≠ "" → String.prefix old (String c s) = false →
  Replace (String c s) old new = String c (Replace s old new).
Proof.
  intros Hold Hpre. unfold Replace.
  destruct (String.eqb old new); [reflexivity|].
  destruct old as [|a o]; [contradiction|].
  cbn [replace_from]. rewrite Hpre. reflexivity.
Qed.

Lemma Contains_empty (s : string) : Contains s "" = true.
Proof. destruct s; reflexivity. Qed.

(** No instance, no change. *)
Lemma Replace_absent (s old new : string) :
  Contains s old = false → Replace s old new = s.
Proof.
  intros Hc. unfold Replace. destruct (String.eqb old new); [reflexivity|].
  destruct old as [|a o]; [rewrite Contains_empty in Hc; discriminate|].
  induction s as [|c s IH]; [reflexivity|].
  simpl in Hc. apply orb_false_elim in Hc as [Hp Hc].
  cbn [replace_from]. simpl. rewrite Hp, (IH Hc). reflexivity.
Qed.

(** ** Expansion of a template *)

Lemma range_order_NoDup (m : gmap string string) (order : list string) :
  Token.range_order m order → NoDup order.
Proof.
  unfold Token.range_order. intros ->. apply NoDup_fst_map_to_list.
Qed.

Lemma range_order_elem (m : gmap string string) (order : list string)
  (k : string) :
  Token.range_order m order → (k ∈ order ↔ is_Some (m !! k)).
Proof.
  unfold Token.range_order. intros ->.
  rewrite list_elem_of_fmap. split.
  - intros ([k' v] & -> & Hkv). apply elem_of_map_to_list in Hkv. eauto.
  - intros [v Hv]. exists (k, v). split; [reflexivity|].
    apply elem_of_map_to_list. exact Hv.
Qed.

Lemma expand_cons (k : string) (order : list string) (format : string)
  (vals : gmap string string) :
  Token.expand (k :: order) format vals
  = Token.expand order
      (match vals !! k with Some v => Replace format k v | None => format end)
      vals.
Proof. reflexivity. Qed.

Lemma expand_app (o1 o2 : list string) (format : string)
  (vals : gmap string string) :
  Token.expand (o1 ++ o2) format vals
  = Token.expand o2 (Token.expand o1 format vals) vals.
Proof. unfold Token.expand. apply foldl_app. Qed.

(** Keys that do not occur in the text leave it as it is. *)
Lemma expand_absent (order : list string) (format : string)
  (vals : gmap string string) :
  (∀ k, k ∈ order → is_Some (vals !! k) → Contains format k = false) →
  Token.expand order format vals = format.
Proof.
  induction order as [|k order IH]; intros Habs; [reflexivity|].
  rewrite expand_cons.
  assert (Hk : match vals !! k with
               | Some v => Replace format k v
               | None => format
               end = format).
  { destruct (vals !! k) as [v|] eqn:Hv; [|reflexivity].
    apply Replace_absent, Habs; [left | eauto]. }
  rewrite Hk. apply IH. intros k' Hk' Hs. apply Habs; [right; exact Hk' | exact Hs].
Qed.

(** One token in the template, and no other in the text before or after
    its replacement: every range order gives the global replacement. *)
Lemma expand_single (order : list string) (template : string)
  (vals : gmap string string) (k v : string) :
  Token.range_order vals order →
  vals !! k = Some v →
  (∀ k', k' ≠ k → is_Some (vals !! k') →
         Contains template k' = false
         ∧ Contains (Replace template k v) k' = false) →
  Token.expand order template vals = Replace template k v.
Proof.
  intros Hr Hk Hother.
  assert (Hin : k ∈ order) by (apply (range_order_elem vals); eauto).
  apply range_order_NoDup in Hr.
  apply list_elem_of_split in Hin as (o1 & o2 & ->).
  apply NoDup_app in Hr as (_ & Hpre & [Hpost _]%NoDup_cons).
  rewrite expand_app, expand_cons.
  rewrite (expand_absent o1).
  - rewrite Hk. apply expand_absent.
    intros k' Hk' Hs. apply Hother; [|exact Hs].
    intros ->. contradiction.
  - intros k' Hk' Hs. apply Hother; [|exact Hs].
    intros ->. apply (Hpre k Hk'). left.
Qed.

(** C3, amended.  Whatever the order in which the map is ranged over:
    a template in which no key of the context occurs is rendered as it
    is; a template in which one key occurs, when no other key occurs
    before or after its replacement, is rendered with every instance of
    the key replaced by its value, [strings.Replace] taking the instances
    from the left, each one replaced and the text between them kept. *)
Theorem expand_global_replace (order : list string) (template : string)
  (vals : gmap string string) :
  Token.range_order vals order →
  ((∀ k, is_Some (vals !! k) → Contains template k = false) →
   Token.expand order template vals = template)
  ∧ (∀ k v, vals !! k = Some v →
       (∀ k', k' ≠ k → is_Some (vals !! k') →
              Contains template k' = false
              ∧ Contains (Replace template k v) k' = false) →
       Token.expand order template vals = Replace template k v)
  ∧ (∀ k v post, k ≠ "" →
       Replace (k +:+ post) k v = v +:+ Replace post k v)
  ∧ (∀ k v c s, k ≠ "" → String.prefix k (String c s) = false →
       Replace (String c s) k v = String c (Replace s k v)).
Proof.
  intros Hr. split; [|split; [|split]].
  - intros Habs. apply expand_absent. intros k _. apply Habs.
  - intros k v. apply expand_single, Hr.
  - intros k v post. apply Replace_here.
  - intros k v c s. apply Replace_skip.
Qed.

Lemma Handle_context_filled : Token.fill Handle_msg = Returns Handle_context.
Proof. vm_compute. reflexivity. Qed.

Lemma Handle_context_order0 : Token.range_order Handle_context order0.
Proof. unfold Token.range_order. apply (bool_decide_unpack _). vm_compute. exact I. Qed.

Lemma expand_global_replace_witness :
  Token.range_order Handle_context order0
  ∧ Token.expand order0 "LEVEL LEVEL" Handle_context = "ERR  ERR "
  ∧ Token.expand order0 "no token here" Handle_context = "no token here".
Proof.
  split; [exact Handle_context_order0|].
  destruct (expand_global_replace order0 "LEVEL LEVEL" Handle_context
              Handle_context_order0) as (_ & Hone & _).
  destruct (expand_global_replace order0 "no token here" Handle_context
              Handle_context_order0) as (Hnone & _).
  split.
  - apply (Hone "LEVEL" "ERR "); [reflexivity|].
    intros k' Hne Hs.
    apply (range_order_elem _ _ _ Handle_context_order0) in Hs.
    unfold order0 in Hs.
    repeat (apply elem_of_cons in Hs as [->|Hs];
            [first [contradiction | split; vm_compute; reflexivity]|]).
    inversion Hs.
  - apply Hnone. intros k Hs.
    apply (range_order_elem _ _ _ Handle_context_order0) in Hs.
    unfold order0 in Hs.
    repeat (apply elem_of_cons in Hs as [->|Hs]; [vm_compute; reflexivity|]).
    inversion Hs.
Defined.

Lemma range_order_permutations (m : gmap string string) (order : list string) :
  Token.range_order m order → order ∈ permutations (map_to_list m).*1.
Proof.
  unfold Token.range_order. intros Hr. apply permutations_Permutation.
  symmetry. exact Hr.
Qed.

Lemma swap_context_orders :
  Forall (λ order, Token.expand order "SUBJECT MESSAGE" swap_context
                   ≠ "MESSAGE SUBJECT")
         (permutations (map_to_list swap_context).*1).
Proof. apply (bool_decide_unpack _). vm_compute. exact I. Qed.

Lemma swap_context_overlap :
  Forall (λ order, Token.expand order "LEVELEVEL" swap_context = "INFOEVEL")
         (permutations (map_to_list swap_context).*1).
Proof. apply (bool_decide_unpack _). vm_compute. exact I. Qed.

(** C3 as stated fails, on two inputs.
    The template [LEVELEVEL] holds the token [LEVEL] at the bytes 0 and
    4; the two instances share a byte, [strings.Replace] takes the left
    one only, and every range order renders [INFOEVEL].
    The template [SUBJECT MESSAGE] holds two tokens once each; for the
    message [Log(Info, "MESSAGE", "SUBJECT")] their context values are
    ["MESSAGE"] and ["SUBJECT"], so replacing each token by its value
    would give ["MESSAGE SUBJECT"].  No range order gives that: the value
    put in for the first token is replaced again with the second one. *)
Lemma expand_global_replace_counterexample :
  Token.fill swap_msg = Returns swap_context
  ∧ swap_context !! "LEVEL" = Some "INFO"
  ∧ swap_context !! "SUBJECT" = Some "MESSAGE"
  ∧ swap_context !! "MESSAGE" = Some "SUBJECT"
  ∧ String.substring 0 5 "LEVELEVEL" = "LEVEL"
  ∧ String.substring 4 5 "LEVELEVEL" = "LEVEL"
  ∧ (¬ ∃ order, Token.range_order swap_context order
                ∧ Token.expand order "LEVELEVEL" swap_context ≠ "INFOEVEL")
  ∧ Token.expand order0 "SUBJECT MESSAGE" swap_context = "SUBJECT SUBJECT"
  ∧ Token.expand order1 "SUBJECT MESSAGE" swap_context = "MESSAGE MESSAGE"
  ∧ ¬ ∃ order, Token.range_order swap_context order
               ∧ Token.expand order "SUBJECT MESSAGE" swap_context
                 = "MESSAGE SUBJECT".
Proof.
  do 6 (split; [vm_compute; reflexivity|]).
  split.
  { intros (order & Hr%range_order_permutations & He).
    pose proof swap_context_overlap as Hall.
    rewrite Forall_forall in Hall. exact (He (Hall order Hr)). }
  split; [vm_compute; reflexivity|].
  split; [vm_compute; reflexivity|].
  intros (order & Hr%range_order_permutations & He).
  pose proof swap_context_orders as Hall.
  rewrite Forall_forall in Hall. exact (Hall order Hr He).
Qed.

(** The scenario of the specification: the template
    [FUNCTION:LINE LEVEL MESSAGE] with the context of [Handle_msg] is
    rendered as [Handle:42 ERR  boom] in every range order. *)
Lemma Handle_context_orders :
  Forall (λ order, Token.expand order "FUNCTION:LINE LEVEL MESSAGE" Handle_context
                   = "Handle:42 ERR  boom")
         (permutations (map_to_list Handle_context).*1).
Proof. apply (bool_decide_unpack _). vm_compute. exact I. Qed.

Example Handle_scenario (order : list string) :
  Token.range_order Handle_context order →
  Token.expand order "FUNCTION:LINE LEVEL MESSAGE" Handle_context
  = "Handle:42 ERR  boom".
Proof.
  intros Hr%range_order_permutations.
  pose proof Handle_context_orders as Hall.
  rewrite Forall_forall in Hall. exact (Hall order Hr).
Qed.

(** C9.  The code at the failing input [Log(Info, "auth", "LEVEL")] with
    the default instance: two range orders of the same context, two
    different lines. *)
Theorem render_depends_on_range_order :
  Token.fill chained_msg = Returns chained_context
  ∧ Token.range_order chained_context order0
  ∧ Token.range_order chained_context order1
  ∧ Token.expand order0 "[LEVEL] SUBJECT, MESSAGE" chained_context
    = "[INFO] auth, LEVEL"
  ∧ Token.expand order1 "[LEVEL] SUBJECT, MESSAGE" chained_context
    = "[INFO] auth, INFO"
  ∧ Token.deliver clock0 orders0 Token.initial chained_msg
    = Returns [ {| Token.ev_sink := Token_default; Token.ev_out := Stdout;
                   Token.ev_data := "[INFO] auth, LEVEL" +:+ newline |} ]
  ∧ Token.deliver clock0 orders1 Token.initial chained_msg
    = Returns [ {| Token.ev_sink := Token_default; Token.ev_out := Stdout;
                   Token.ev_data := "[INFO] auth, INFO" +:+ newline |} ].
Proof.
  split; [vm_compute; reflexivity|].
  split; [unfold Token.range_order; apply (bool_decide_unpack _);
          vm_compute; exact I|].
  split; [unfold Token.range_order; apply (bool_decide_unpack _);
          vm_compute; exact I|].
  split; [vm_compute; reflexivity|].
  split; [vm_compute; reflexivity|].
  split; vm_compute; reflexivity.
Qed.

(** A nil subject is stored as the text [<nil>], for every message. *)
Lemma fill_nil_subject (msg : Token.Message) (vals : gmap string string) :
  Token.Subject msg = VNil → Token.fill msg = Returns vals →
  vals !! Token.ExpandSubject = Some "<nil>".
Proof.
  unfold Token.fill. intros ->.
  intros (body & _ & (m1 & Hm1 & Hrest)%obind_Returns)%obind_Returns.
  cbn in Hrest.
  destruct m1 as [m|]; [|discriminate]. cbn in Hrest.
  apply obind_Returns in Hrest as (lvl & _ & [= <-]).
  rewrite lookup_insert_ne by discriminate. apply lookup_insert_eq.
Qed.

(** C8.  The code at the failing input [Log(Info, nil, "tick")] with the
    default instance: the token [SUBJECT] stands for [<nil>], and the
    line written holds that text. *)
Theorem nil_subject_placeholder :
  ∃ vals,
    Token.fill (Token.Log "main.main" 42 "t" "d" Info VNil "tick" [])
    = Returns vals
    ∧ vals !! Token.ExpandSubject = Some "<nil>"
    ∧ Token.deliver clock0 orders0 Token.initial
        (Token.Log "main.main" 42 "t" "d" Info VNil "tick" [])
      = Returns [ {| Token.ev_sink := Token_default; Token.ev_out := Stdout;
                     Token.ev_data := "[INFO] <nil>, tick" +:+ newline |} ].
Proof.
  eexists. split; [vm_compute; reflexivity|].
  split; vm_compute; reflexivity.
Qed.

(** ** What a selected instance gets written *)

Lemma Output_stamped (l : Logger) (stamp line : string) :
  lg_flag l = LstdFlags →
  (Output l stamp line).2
  = (lg_prefix l +:+ stamp) +:+ line
    +:+ (if ends_with_newline line then "" else newline).
Proof. unfold Output, formatHeader. intros ->. reflexivity. Qed.

Lemma Output_plain (out : Writer) (stamp line : string) :
  Output (log_New out "" 0) stamp line
  = (out, line +:+ (if ends_with_newline line then "" else newline)).
Proof. reflexivity. Qed.

Lemma Fixed_deliver_length (clock : nat → string) (st : Fixed.State)
  (msg : Fixed.Message) (evs : list Fixed.Event) :
  Fixed.deliver clock st msg = Returns evs →
  (Fixed.Level msg <? Fixed.level st) = false →
  length evs
  = length (select_loggers Fixed.tags (Fixed.Tags msg) (Fixed.gologgers st)).
Proof.
  intros Hd Hlt. pose proof (Fixed_deliver_sinks _ _ _ _ Hd) as Hs.
  rewrite Hlt in Hs. rewrite <- Hs, length_map. reflexivity.
Qed.

Lemma Token_deliver_length (clock : nat → string) (orders : nat → list string)
  (st : Token.State) (msg : Token.Message) (evs : list Token.Event) :
  Token.deliver clock orders st msg = Returns evs →
  (Token.Level msg <? Token.level st) = false →
  length evs
  = length (select_loggers Token.tags (Token.Tags msg) (Token.gologgers st)).
Proof.
  intros Hd Hlt. pose proof (Token_deliver_sinks _ _ _ _ _ Hd) as Hs.
  rewrite Hlt in Hs. rewrite <- Hs, length_map. reflexivity.
Qed.

(** C5, amended.  For a delivered message and the [i]-th selected
    instance [l], the dispatcher makes one write for [l], through the
    logger of [l].  In the token-template variant, when the rendered line
    holds no [%], the bytes are the line and a newline (no newline when
    the line ends with one), and they go to the output of [l].  In the
    fixed-layout variant the bytes are the prefix of the logger of [l],
    the date and time, the line and the newline. *)
Theorem written_line
  (clock : nat → string) (orders : nat → list string)
  (fs : Fixed.State) (fm : Fixed.Message)
  (ts : Token.State) (tm : Token.Message) :
  Fixed_well_formed fm = true → Token_well_formed tm = true →
  Fixed.level fs ≤ Fixed.Level fm → Token.level ts ≤ Token.Level tm →
  Forall Fixed_stamped (Fixed.gologgers fs) →
  Forall Token_initialized (Token.gologgers ts) →
  (∃ line evs,
     Fixed.render fm = Returns line
     ∧ Fixed.deliver clock fs fm = Returns evs
     ∧ length evs
       = length (select_loggers Fixed.tags (Fixed.Tags fm) (Fixed.gologgers fs))
     ∧ ∀ i l,
         select_loggers Fixed.tags (Fixed.Tags fm) (Fixed.gologgers fs) !! i
         = Some l →
         ∃ e lg, evs !! i = Some e
                 ∧ Fixed.ev_sink e = l
                 ∧ Fixed.log l = Some lg
                 ∧ Fixed.ev_data e
                   = (lg_prefix lg +:+ clock i) +:+ line
                     +:+ (if ends_with_newline line then "" else newline))
  ∧ (∃ vals evs,
       Token.fill tm = Returns vals
       ∧ Token.deliver clock orders ts tm = Returns evs
       ∧ length evs
         = length (select_loggers Token.tags (Token.Tags tm) (Token.gologgers ts))
       ∧ ∀ i l,
           select_loggers Token.tags (Token.Tags tm) (Token.gologgers ts) !! i
           = Some l →
           ∃ e, evs !! i = Some e
                ∧ Token.ev_sink e = l
                ∧ (no_percent (Token.expand (orders i) (Token.Format l) vals) = true →
                   Token.ev_out e = Token.output l
                   ∧ Token.ev_data e
                     = Token.expand (orders i) (Token.Format l) vals
                       +:+ (if ends_with_newline
                                 (Token.expand (orders i) (Token.Format l) vals)
                            then "" else newline))).
Proof.
  intros Hfw Htw Hfl%N.ltb_ge Htl%N.ltb_ge Hfi Hti. split.
  - destruct (Fixed_render_returns fm Hfw) as [line Hline].
    destruct (Fixed_deliver_returns clock fs fm Hfw Hfi) as [evs Hd].
    exists line, evs. split; [exact Hline|]. split; [exact Hd|].
    split; [exact (Fixed_deliver_length _ _ _ _ Hd Hfl)|].
    intros i l Hil.
    destruct (Fixed_deliver_lookup _ _ _ _ Hd Hfl i l Hil) as (e & He & Hp).
    apply Fixed_print_inv in Hp
      as (Hs & line' & lg & Hline' & Hlg & _ & Hdata).
    exists e, lg. repeat (split; [assumption|]).
    rewrite Hline in Hline'. injection Hline' as <-.
    rewrite Hdata. apply Output_stamped.
    rewrite Forall_forall in Hfi.
    destruct (Hfi l) as (lg' & Hlg' & Hflag).
    { apply list_elem_of_lookup_2 in Hil.
      apply select_loggers_elem in Hil as [Hil _]. exact Hil. }
    congruence.
  - destruct (Token_fill_returns tm Htw)
      as (m & body & subject & lvl & _ & _ & _ & _ & Hfill).
    destruct (Token_deliver_returns clock orders ts tm Htw Hti) as [evs Hd].
    eexists. exists evs. split; [exact Hfill|]. split; [exact Hd|].
    split; [exact (Token_deliver_length _ _ _ _ _ Hd Htl)|].
    intros i l Hil.
    destruct (Token_deliver_lookup _ _ _ _ _ _ Hd Hfill Htl i l Hil)
      as (e & He & Hp).
    apply Token_print_inv in Hp as (Hs & lg & Hlg & Hout & Hdata).
    exists e. repeat (split; [assumption|]).
    intros Hnp. rewrite (Sprintf0_no_percent _ Hnp) in Hdata.
    assert (Hinit : Token_initialized l).
    { rewrite Forall_forall in Hti. apply Hti.
      apply list_elem_of_lookup_2 in Hil.
      apply select_loggers_elem in Hil as [Hil _]. exact Hil. }
    unfold Token_initialized in Hinit. rewrite Hinit in Hlg.
    injection Hlg as <-. rewrite Hout, Hdata. split; reflexivity.
Qed.

Lemma written_line_witness :
  (∃ evs e,
     Fixed.deliver clock0 Fixed_two_sinks (Fixed.Log Info VNil "hi" [])
     = Returns evs
     ∧ evs !! 0%nat = Some e
     ∧ Fixed.ev_sink e = Fixed_S2
     ∧ Fixed.ev_data e = "2009/11/10 23:00:00 [INFO] hi" +:+ newline)
  ∧ (∃ evs e,
       Token.deliver clock0 orders0 Token_two_sinks Handle_msg = Returns evs
       ∧ evs !! 0%nat = Some e
       ∧ Token.ev_sink e = Token_S2
       ∧ Token.ev_out e = Handle 2
       ∧ Token.ev_data e = "[ERR ] auth, boom" +:+ newline).
Proof.
  destruct (written_line clock0 orders0
              Fixed_two_sinks (Fixed.Log Info VNil "hi" [])
              Token_two_sinks Handle_msg)
    as [(line & fe & Hline & Hfd & _ & Hf) (vals & te & Hfill & Htd & _ & Ht)];
    [reflexivity | reflexivity | discriminate | discriminate
    | exact Fixed_two_sinks_stamped | exact Token_two_sinks_initialized |].
  split.
  - destruct (Hf 0%nat Fixed_S2 eq_refl) as (e & lg & He & Hs & Hlg & Hd).
    exists fe, e. repeat (split; [assumption|]).
    rewrite Hd. vm_compute in Hline. injection Hline as <-.
    vm_compute in Hlg. injection Hlg as <-. reflexivity.
  - rewrite Handle_context_filled in Hfill. injection Hfill as <-.
    destruct (Ht 0%nat Token_S2 eq_refl) as (e & He & Hs & Hd).
    destruct Hd as [Ho Hd]; [vm_compute; reflexivity|].
    exists te, e. repeat (split; [assumption|]).
    rewrite Hd. vm_compute. reflexivity.
Defined.

(** C5 as stated fails, on two inputs.
    In the fixed-layout variant the package starts with the instance
    [default]; the line for [Log(Info, nil, "hi")] is [[INFO] hi], and
    the bytes written start with the date and the time.
    In the token-template variant the line for [Log(Info, "s", "done\n")]
    ends with a newline, and the bytes written are that line, with no
    newline after it. *)
Lemma written_line_counterexample :
  Fixed.render (Fixed.Log Info VNil "hi" []) = Returns "[INFO] hi"
  ∧ Fixed.deliver clock0 Fixed.initial (Fixed.Log Info VNil "hi" [])
    = Returns [ {| Fixed.ev_sink := Fixed_default;
                   Fixed.ev_out := Stdout;
                   Fixed.ev_data := "2009/11/10 23:00:00 [INFO] hi" +:+ newline |} ]
  ∧ "2009/11/10 23:00:00 [INFO] hi" +:+ newline ≠ "[INFO] hi" +:+ newline
  ∧ (∃ vals,
       Token.fill (Token.Log "main.main" 42 "t" "d" Info (VString "s")
                     ("done" +:+ newline) [])
       = Returns vals
       ∧ Token.expand order0 "[LEVEL] SUBJECT, MESSAGE" vals
         = "[INFO] s, done" +:+ newline)
  ∧ Token.deliver clock0 orders0 Token.initial
      (Token.Log "main.main" 42 "t" "d" Info (VString "s")
         ("done" +:+ newline) [])
    = Returns [ {| Token.ev_sink := Token_default;
                   Token.ev_out := Stdout;
                   Token.ev_data := "[INFO] s, done" +:+ newline |} ]
  ∧ "[INFO] s, done" +:+ newline ≠ ("[INFO] s, done" +:+ newline) +:+ newline.
Proof.
  split; [reflexivity|]. split; [reflexivity|]. split; [discriminate|].
  split; [eexists; split; vm_compute; reflexivity|].
  split; [vm_compute; reflexivity|]. discriminate.
Qed.

(** ** The scenarios of the specification *)

Example Sprintf_d : Sprintf "failed %d times" [VInt 3] = Returns "failed 3 times".
Proof. reflexivity. Qed.

Example Replace_all_instances : Replace "LEVEL LEVEL" "LEVEL" "INFO" = "INFO INFO".
Proof. reflexivity. Qed.

Example Fixed_scenario :
  Fixed.deliver clock0 Fixed.initial
    (Fixed.Log Warning (VString "auth") "failed %d times" [VInt 3])
  = Returns [ {| Fixed.ev_sink := Fixed_default;
                 Fixed.ev_out := Stdout;
                 Fixed.ev_data :=
                   "2009/11/10 23:00:00 [WARN] auth, failed 3 times" +:+ newline |} ].
Proof. reflexivity. Qed.

Example Token_scenario :
  Token.deliver clock0 orders0 Token.initial
    (Token.Log "main.main" 42 "t" "d" Warning (VString "auth") "failed %d times" [VInt 3])
  = Returns [ {| Token.ev_sink := Token_default;
                 Token.ev_out := Stdout;
                 Token.ev_data := "[WARN] auth, failed 3 times" +:+ newline |} ].
Proof. vm_compute. reflexivity. Qed.

Example Fixed_below_threshold :
  Fixed.deliver clock0 Fixed.initial (Fixed.Log Debug VNil "tick" []) = Returns [].
Proof. reflexivity. Qed.

(** An instance added with its own output: [initialize] of [log.go]
    points its logger at the standard output. *)
Example Fixed_own_output :
  Fixed.deliver clock0 Fixed_two_sinks (Fixed.Log Info VNil "hi" [])
  = Returns [ {| Fixed.ev_sink := Fixed_S2;
                 Fixed.ev_out := Stdout;
                 Fixed.ev_data := "2009/11/10 23:00:00 [INFO] hi" +:+ newline |} ]
  ∧ Fixed.output Fixed_S2 = Handle 2.
Proof. split; reflexivity. Qed.

(** After a [Prefix] command the loggers write to the outputs of their
    instances. *)
Example Fixed_after_Prefix :
  ∃ st, Fixed.step clock0 Fixed_two_sinks (Fixed.Prefix "app ") = Returns (st, [])
        ∧ Fixed.deliver clock0 st (Fixed.Log Info VNil "hi" [])
          = Returns [ {| Fixed.ev_sink :=
                           {| Fixed.Name := "S2"; Fixed.output := Handle 2;
                              Fixed.tags := [];
                              Fixed.log :=
                                Some (log_New (Handle 2) "app " LstdFlags) |};
                         Fixed.ev_out := Handle 2;
                         Fixed.ev_data :=
                           "app 2009/11/10 23:00:00 [INFO] hi" +:+ newline |} ].
Proof. eexists. split; reflexivity. Qed.

(** A [%] in the rendered line is read as a directive by [Printf]. *)
Example Token_percent :
  Token.deliver clock0 orders0 Token.initial
    (Token.Log "main.main" 42 "t" "d" Info (VString "cpu") "100%%" [])
  = Returns [ {| Token.ev_sink := Token_default;
                 Token.ev_out := Stdout;
                 Token.ev_data := "[INFO] cpu, 100%!(NOVERB)" +:+ newline |} ].
Proof. vm_compute. reflexivity. Qed.

(** A message put on [Sink] with a nil [values] map stops the dispatcher
    of the token-template variant. *)
Example Token_nil_values :
  Token.deliver clock0 orders0 Token.initial
    {| Token.Level := Error; Token.Subject := VNil; Token.Tags := ["db"];
       Token.values := None; Token.MFormat := "x"; Token.Elements := [] |}
  = Crashes.
Proof. reflexivity. Qed.
